(** * CipherForge: password generation and password-strength scoring

    A shallow embedding of the JavaScript classes [CipherCraft] (generator)
    and [CipherForge] (scorer) and the properties their specification
    states about them.

    The scorer is the revision of [CipherForge] whose total is the plain
    sum of the four sub-scores with the threshold 75 (file [part_001]);
    the generator is [CipherCraft], with the two bodies that
    [BasicPassword] has in [index.js] and in [part_001].

    Conventions of the embedding.
    - A JavaScript string is the list of its UTF-16 code units
      ([jsstring]).  Regular-expression classes without the [u] and [i]
      flags are predicates on one code unit.
    - The scorer's numbers are rationals ([Q]): every quantity it computes
      is an integer except the interpolated length score, which is kept as
      the exact quotient that the engine rounds to a binary64.  [Binary64]
      redoes the arithmetic in IEEE 754 double precision, and the section
      on rounding shows that the verdict is the same and the length score
      agrees to within [2^-47].
    - [String.prototype.toLowerCase] is a built-in with Unicode tables; the
      scorer takes it as a section variable, and [toLowerCaseASCII] is the
      instance used on concrete Basic-Latin passwords.
    - Code that can throw returns an [outcome]; code that reads the random
      source, the console or the file system passes that state along.
    - The scoring methods are embedded as functions of the password and
      the word list.  [Calls] runs them as calls over the state of the
      process (fields of the scorer, console, file reads, random source),
      and the section on purity shows that a call of [Test] returns the
      value of that function and changes nothing. *)

From Stdlib Require Import QArith Qminmax Qabs ZArith NArith List String Ascii Lia.
From Stdlib Require Import Floats.SpecFloat.
From Stdlib Require Import Lqa.
From stdpp Require Import base gmap sets list.
Import ListNotations.

Set Default Proof Using "Type".

(* ===================================================================== *)
(** ** JavaScript values shared by both classes                          *)
(* ===================================================================== *)

Definition codeunit : Type := N.
Bind Scope N_scope with codeunit.
Definition jsstring : Type := list codeunit.

(** A Rocq string literal read as a JavaScript string (one code unit per
    character; the literals used below are Basic Latin). *)
Definition js (s : string) : jsstring :=
  List.map N_of_ascii (list_ascii_of_string s).
Arguments js s%_string.

Inductive error : Type :=
| TypeError (message : jsstring)
| ReferenceError (message : jsstring)
| RangeError (message : jsstring)
| SystemError (message : jsstring).

Definition message_of (e : error) : jsstring :=
  match e with
  | TypeError m | ReferenceError m | RangeError m | SystemError m => m
  end.

(** How a call ends: with a value, with an exception, with the call depth
    of the model used up, or outside the argument shapes that are
    modelled. *)
Inductive outcome (A : Type) : Type :=
| Return (a : A)
| Throw (e : error)
| OutOfFuel
| Unmodelled.
Arguments Return {A} a.
Arguments Throw {A} e.
Arguments OutOfFuel {A}.
Arguments Unmodelled {A}.

(** A computation threading a state [S] (random source, console). *)
Definition M (S A : Type) : Type := S -> outcome A * S.

Definition ret {S A} (a : A) : M S A := fun s => (Return a, s).
Definition throw {S A} (e : error) : M S A := fun s => (Throw e, s).
Definition bind {S A B} (m : M S A) (k : A -> M S B) : M S B :=
  fun s =>
    match m s with
    | (Return a, s') => k a s'
    | (Throw e, s') => (Throw e, s')
    | (OutOfFuel, s') => (OutOfFuel, s')
    | (Unmodelled, s') => (Unmodelled, s')
    end.

Declare Scope js_scope.
Delimit Scope js_scope with js.
Notation "x <- m ;; k" := (bind m (fun x => k))
  (at level 100, m at next level, right associativity) : js_scope.

(* ===================================================================== *)
(** ** Regular expressions and string built-ins used by the scorer       *)
(* ===================================================================== *)

Module RegExp.

Definition inRange (lo hi c : codeunit) : bool :=
  ((lo <=? c) && (c <=? hi))%N.
Arguments inRange (lo hi c)%_N.

(** [/[a-z]/], [/[A-Z]/], [/\d/], [/\w/] and [/\W/] on one code unit. *)
Definition lowercase (c : codeunit) : bool := inRange 97 122 c.
Definition uppercase (c : codeunit) : bool := inRange 65 90 c.
Definition digit (c : codeunit) : bool := inRange 48 57 c.
Definition word (c : codeunit) : bool :=
  lowercase c || uppercase c || digit c || (c =? 95)%N.
Definition nonWord (c : codeunit) : bool := negb (word c).

(** [/[...]/.test(s)] and [/[...]+/.test(s)]: some code unit of [s] is
    in the class. *)
Definition test (class : codeunit -> bool) (s : jsstring) : bool :=
  existsb class s.

(** [s.split(/C+/)] for a class [C], after the language's split
    algorithm: the pieces are the text between maximal runs of class
    members, so a separator at either end leaves an empty piece there
    and the empty string splits into one empty piece.  [cur] holds the
    piece being read, reversed; [inSep] tells that the previous code
    unit was part of a separator. *)
Fixpoint splitRuns (sep : codeunit -> bool) (inSep : bool)
         (cur : jsstring) (s : jsstring) : list jsstring :=
  match s with
  | [] => [rev cur]
  | c :: s' =>
      if sep c then
        if inSep then splitRuns sep true [] s'
        else rev cur :: splitRuns sep true [] s'
      else splitRuns sep false (c :: cur) s'
  end.

Definition split (sep : codeunit -> bool) (s : jsstring) : list jsstring :=
  splitRuns sep false [] s.

(** [s.split(/\r?\n/)]: a line feed, with the carriage return before it
    when there is one, ends a piece. *)
Fixpoint splitLinesFrom (cur : jsstring) (s : jsstring) : list jsstring :=
  match s with
  | [] => [rev cur]
  | 13%N :: (10%N :: s') => rev cur :: splitLinesFrom [] s'
  | 10%N :: s' => rev cur :: splitLinesFrom [] s'
  | c :: s' => splitLinesFrom (c :: cur) s'
  end.

Definition splitLines (s : jsstring) : list jsstring := splitLinesFrom [] s.

(** White space and line terminators, the code units [trim] removes. *)
Definition whiteSpace (c : codeunit) : bool :=
  (inRange 9 13 c || (c =? 32) || (c =? 160) || (c =? 5760)
   || inRange 8192 8202 c || (c =? 8232) || (c =? 8233) || (c =? 8239)
   || (c =? 8287) || (c =? 12288) || (c =? 65279))%N.

(** [s.trim() !== ''] *)
Definition trimNonEmpty (s : jsstring) : bool :=
  negb (forallb whiteSpace s).

End RegExp.

(** [toLowerCase] on Basic Latin: [A]-[Z] move to [a]-[z], every other
    code unit below 128 stays.  On strings of such code units this is the
    built-in. *)
Definition toLowerCaseASCII (s : jsstring) : jsstring :=
  List.map (fun c => if RegExp.uppercase c then (c + 32)%N else c) s.

(* ===================================================================== *)
(** ** class CipherForge (the scorer)                                    *)
(* ===================================================================== *)

Module CipherForge.

Local Open Scope Q_scope.

Record Details : Type := {
  lengthScore : Q;
  diversityScore : Q;
  specialCharactersScore : Q;
  dictionaryScore : Q
}.

Record ScoreReport : Type := {
  isSecure : bool;
  totalScore : Q;
  details : Details
}.

(** The fields the constructor assigns on [this]. *)
Record instance : Type := {
  dictionaryFilePath : jsstring;
  dictionary : gset jsstring
}.

(** [Set.prototype.has] *)
Definition has (d : gset jsstring) (w : jsstring) : bool :=
  bool_decide (w ∈ d).

Definition calculateLengthScore (password : jsstring) : Q :=
  let minLength := 8%Z in
  let maxLength := 20%Z in
  let len := Z.of_nat (List.length password) in
  if (len <? minLength)%Z then 0
  else if (maxLength <? len)%Z then 50
  else (inject_Z (len - minLength) / inject_Z (maxLength - minLength)) * 50.

Definition characterSets : list (codeunit -> bool) :=
  [RegExp.lowercase; RegExp.uppercase; RegExp.digit; RegExp.nonWord].

Definition calculateDiversityScore (password : jsstring) : Q :=
  fold_left
    (fun score set => score + (if RegExp.test set password then 25 else 0))
    characterSets 0.

(** The members of the character class of the regular expression in
    [calculateSpecialCharactersScore], in the order of the source; the
    double quote is code unit 34. *)
Definition specialCharacters : jsstring :=
  js "!@#$%^&*()_+-=[]{}|;':" ++ [34%N] ++ js ",.<>/?".

Definition specialCharacter (c : codeunit) : bool :=
  existsb (N.eqb c) specialCharacters.

Definition calculateSpecialCharactersScore (password : jsstring) : Q :=
  if RegExp.test specialCharacter password then 25 else 0.

Section Scorer.

Variable toLowerCase : jsstring -> jsstring.

Definition wordsInPassword (password : jsstring) : list jsstring :=
  RegExp.split RegExp.nonWord (toLowerCase password).

Definition matchingWords (this : instance) (password : jsstring)
  : list jsstring :=
  List.filter (fun word => has (dictionary this) word)
              (wordsInPassword password).

Definition calculateDictionaryScore (this : instance)
           (password : jsstring) : Q :=
  Qmax 0 (50 - inject_Z (Z.of_nat (List.length (matchingWords this password))) * 10).

Definition Test (this : instance) (password : jsstring) : ScoreReport :=
  let lengthScore := calculateLengthScore password in
  let diversityScore := calculateDiversityScore password in
  let specialCharactersScore := calculateSpecialCharactersScore password in
  let dictionaryScore := calculateDictionaryScore this password in
  let totalScore :=
    lengthScore + diversityScore + specialCharactersScore + dictionaryScore in
  {| isSecure := Qle_bool 75 totalScore;
     totalScore := totalScore;
     details := {| lengthScore := lengthScore;
                   diversityScore := diversityScore;
                   specialCharactersScore := specialCharactersScore;
                   dictionaryScore := dictionaryScore |} |}.

End Scorer.

(** *** Construction

    What the constructor reaches outside the class: the file system, the
    console, the entry module and the identifiers visible in the
    module. *)

Record host : Type := {
  (** [fs.readFileSync(path, 'utf-8')]: the text, or the error thrown. *)
  readFileSync : jsstring -> jsstring + error;
  (** [require.main.path], when there is an entry module. *)
  mainPath : option jsstring;
  (** The names of the properties of the global object. *)
  globalNames : list string;
  (** [join] of the global named [path], for a host that has one. *)
  pathJoin : list jsstring -> jsstring
}.

(** The console: the lines written with [console.error], oldest first. *)
Definition console : Type := list jsstring.

Definition consoleError (line : jsstring) : M console unit :=
  fun out => (Return tt, out ++ [line]).

(** The identifiers the file declares at top level ([const fs] and the
    two classes); it declares no other. *)
Definition moduleScope : list string :=
  ["fs"; "CipherCraft"; "CipherForge"]%string.

(** The identifiers the module wrapper binds around the file. *)
Definition wrapperScope : list string :=
  ["exports"; "require"; "module"; "__filename"; "__dirname"]%string.

Definition bound (h : host) (x : string) : bool :=
  existsb (String.eqb x) (moduleScope ++ wrapperScope ++ globalNames h).

Definition loadDictionary (h : host) (dictionaryFilePath : jsstring)
  : M console (list jsstring) :=
  match readFileSync h dictionaryFilePath with
  | inl data =>
      ret (List.filter RegExp.trimNonEmpty (RegExp.splitLines data))
  | inr error =>
      (_ <- consoleError (js "Error reading file " ++ dictionaryFilePath
                            ++ js ": " ++ message_of error) ;;
       ret [])%js
  end.

Definition constructor (h : host) : M console instance :=
  if bound h "path" then
    match mainPath h with
    | None =>
        throw (TypeError
                 (js "Cannot read properties of undefined (reading 'path')"))
    | Some main =>
        let dictionaryFilePath :=
          pathJoin h [main; js "node_modules"; js "cipherforge"; js "psw.txt"] in
        (words <- loadDictionary h dictionaryFilePath ;;
         ret {| dictionaryFilePath := dictionaryFilePath;
                dictionary := list_to_set words |})%js
    end
  else throw (ReferenceError (js "path is not defined")).

End CipherForge.

(* ===================================================================== *)
(** ** The scorer's arithmetic in double precision                       *)
(* ===================================================================== *)

Module Binary64.

Definition prec : Z := 53.
Definition emax : Z := 1024.

(** The double that an integer literal or a string length denotes. *)
Definition ofZ (z : Z) : spec_float := binary_normalize prec emax z 0 false.

(** The rational a finite double stands for. *)
Definition toQ (x : spec_float) : Q :=
  match x with
  | S754_finite s m e =>
      (inject_Z (if s then Z.neg m else Z.pos m) * Qpower 2 e)%Q
  | _ => 0%Q
  end.

Definition add : spec_float -> spec_float -> spec_float := SFadd prec emax.
Definition sub : spec_float -> spec_float -> spec_float := SFsub prec emax.
Definition mul : spec_float -> spec_float -> spec_float := SFmul prec emax.
Definition div : spec_float -> spec_float -> spec_float := SFdiv prec emax.

(** [calculateLengthScore] on a password of [len] code units.  A length is
    an integer far below [2^53], so the two comparisons are those of the
    integers. *)
Definition calculateLengthScore (len : Z) : spec_float :=
  let minLength := 8%Z in
  let maxLength := 20%Z in
  if (len <? minLength)%Z then ofZ 0
  else if (maxLength <? len)%Z then ofZ 50
  else mul (div (sub (ofZ len) (ofZ minLength))
                (sub (ofZ maxLength) (ofZ minLength)))
           (ofZ 50).

(** The sum and the verdict of [Test], from the length and the three
    integer sub-scores. *)
Definition totalScore (len diversity special dictionary : Z) : spec_float :=
  add (add (add (calculateLengthScore len) (ofZ diversity)) (ofZ special))
      (ofZ dictionary).

Definition isSecure (len diversity special dictionary : Z) : bool :=
  SFleb (ofZ 75) (totalScore len diversity special dictionary).

(** The length score of the rational model, as a function of the
    length. *)
Definition exactLengthScore (len : Z) : Q :=
  (if (len <? 8)%Z then 0
   else if (20 <? len)%Z then 50
   else (inject_Z (len - 8) / inject_Z (20 - 8)) * 50)%Q.

(** The values the integer sub-scores take. *)
Definition diversityValues : list Z := [0; 25; 50; 75; 100]%Z.
Definition specialValues : list Z := [0; 25]%Z.
Definition dictionaryValues : list Z := [0; 10; 20; 30; 40; 50]%Z.

(** One length for each branch below 8 and above 20, and every length in
    between. *)
Definition lengths : list Z :=
  [7; 8; 9; 10; 11; 12; 13; 14; 15; 16; 17; 18; 19; 20; 21]%Z.

Definition sameVerdict (len diversity special dictionary : Z) : bool :=
  Bool.eqb (isSecure len diversity special dictionary)
           (Qle_bool 75 (exactLengthScore len + inject_Z diversity
                         + inject_Z special + inject_Z dictionary)%Q).

Definition closeLengthScore (len : Z) : bool :=
  Qle_bool (Qabs (toQ (calculateLengthScore len) - exactLengthScore len))
           (1 # 2 ^ 47)%Q.

(** Below 8 and above 20 the scores do not depend on the length; a length
    is then represented by 7 or by 21. *)
Definition representative (len : Z) : Z :=
  if (len <? 8)%Z then 7%Z else if (20 <? len)%Z then 21%Z else len.

End Binary64.

(* ===================================================================== *)
(** ** class CipherCraft (the generator)                                 *)
(* ===================================================================== *)

Module CipherCraft.

(** The numbers of the generator: integers (lengths, indices, 32-bit
    words), and [NaN], which the remainder by zero produces. *)
Inductive number : Type :=
| Int (z : Z)
| NaN.

(** The object literal passed to [CustomPassword]; an absent property is
    [None]. *)
Record options : Type := {
  length : option number;
  useLowercase : option bool;
  useUppercase : option bool;
  useNumbers : option bool;
  useSymbols : option bool;
  customCharset : option jsstring
}.

Inductive value : Type :=
| VUndefined
| VNumber (n : number)
| VString (s : jsstring)
| VBytes (bytes : list Z)
| VOptions (o : options).

(** The process-wide random source, as the stream of the bytes that the
    successive evaluations of [Math.floor(Math.random() * 256)] give. *)
Definition source : Type := nat -> Byte.byte.

Definition nextByte : M source Z :=
  fun rnd => (Return (Z.of_N (Byte.to_N (rnd 0%nat))), fun i => rnd (S i)).

(** *** Number and string operators *)

Definition ToInt32 (z : Z) : Z := (z + 2 ^ 31) mod 2 ^ 32 - 2 ^ 31.
Definition ToUint32 (z : Z) : Z := z mod 2 ^ 32.

(** [a << k], [a | b] and [a >>> 0] *)
Definition shl (a k : Z) : Z := ToInt32 (Z.shiftl (ToInt32 a) k).
Definition bitor (a b : Z) : Z := ToInt32 (Z.lor (ToInt32 a) (ToInt32 b)).
Definition ushr0 (a : Z) : Z := ToUint32 a.

(** [a % b] *)
Definition remainder (a b : number) : number :=
  match a, b with
  | Int x, Int y => if (y =? 0)%Z then NaN else Int (Z.rem x y)
  | _, _ => NaN
  end.

(** [s[i]]: the code unit at an index inside the string, [undefined]
    at any other number. *)
Definition charAt (s : jsstring) (i : number) : value :=
  match i with
  | Int z =>
      if (z <? 0)%Z then VUndefined
      else match nth_error s (Z.to_nat z) with
           | Some c => VString [c]
           | None => VUndefined
           end
  | NaN => VUndefined
  end.

(** [s += v] for the values an index gives. *)
Definition appendValue (s : jsstring) (v : value) : option jsstring :=
  match v with
  | VString t => Some (s ++ t)
  | VUndefined => Some (s ++ js "undefined")
  | _ => None
  end.

(** The number of times [for (let i = 0; i < bound; i++)] runs its
    body. *)
Definition iterations (bound : number) : nat :=
  match bound with
  | Int z => Z.to_nat z
  | NaN => 0%nat
  end.

(** *** The class *)

Record charsets_t : Type := {
  lowercase : jsstring;
  uppercase : jsstring;
  numeric : jsstring;
  symbols : jsstring
}.

(** [this.charsets], as the constructor sets it. *)
Definition charsets : charsets_t := {|
  lowercase := js "abcdefghijklmnopqrstuvwxyz";
  uppercase := js "ABCDEFGHIJKLMNOPQRSTUVWXYZ";
  numeric := js "0123456789";
  symbols := js "!@#$%^&*()_+-=[]{}|;:,.<>?"
|}.

Inductive method : Type :=
| CustomPassword_m
| BasicPassword_m
| Key_m
| RandInt_m
| getRandomBytes_m
| bytesToNumber_m.

(** The methods the class body declares, by name. *)
Definition prototype : list (string * method) :=
  [("CustomPassword", CustomPassword_m);
   ("BasicPassword", BasicPassword_m);
   ("Key", Key_m);
   ("RandInt", RandInt_m);
   ("_getRandomBytes", getRandomBytes_m);
   ("_bytesToNumber", bytesToNumber_m)]%string.

(** The properties of [Object.prototype], which every instance
    inherits. *)
Definition objectPrototype : list string :=
  ["hasOwnProperty"; "isPrototypeOf"; "propertyIsEnumerable";
   "toLocaleString"; "toString"; "valueOf"; "__defineGetter__";
   "__defineSetter__"; "__lookupGetter__"; "__lookupSetter__";
   "__proto__"]%string.

(** What [this.name] evaluates to on an instance. *)
Inductive property : Type :=
| Method (m : method)
| Builtin
| NotCallable
| Absent.

Fixpoint assoc {A} (name : string) (l : list (string * A)) : option A :=
  match l with
  | [] => None
  | (k, v) :: l' => if String.eqb name k then Some v else assoc name l'
  end.

Definition getProperty (name : string) : property :=
  if String.eqb name "charsets" then NotCallable
  else match assoc name prototype with
       | Some m => Method m
       | None =>
           if String.eqb name "constructor" then NotCallable
           else if existsb (String.eqb name) objectPrototype then Builtin
           else Absent
       end.

Definition notAFunction (name : string) : error :=
  TypeError (js "this." ++ js name ++ js " is not a function").

(** The two revisions of the class body differ in one identifier: the
    method [BasicPassword] calls for a random index. *)
Inductive revision : Type :=
| index_js
| part_001.

Section Methods.

Variable rev : revision.

(** [this.name(args)], late bound: the methods reach each other
    through it. *)
Variable call : string -> list value -> M source value.

Definition CustomPassword (arg : option options) : M source value :=
  let options :=
    match arg with
    | Some o => o
    | None => {| length := None; useLowercase := None;
                 useUppercase := None; useNumbers := None;
                 useSymbols := None; customCharset := None |}
    end in
  let length := default (Int 12) (length options) in
  let useLowercase := default true (useLowercase options) in
  let useUppercase := default true (useUppercase options) in
  let useNumbers := default true (useNumbers options) in
  let useSymbols := default true (useSymbols options) in
  let customCharset := default [] (customCharset options) in
  let charset := customCharset in
  let charset :=
    if useLowercase then charset ++ lowercase charsets else charset in
  let charset :=
    if useUppercase then charset ++ uppercase charsets else charset in
  let charset :=
    if useNumbers then charset ++ numeric charsets else charset in
  let charset :=
    if useSymbols then charset ++ symbols charsets else charset in
  call "generatePassword" [VString charset; VNumber length].

Fixpoint BasicPassword_loop (charset : jsstring) (n : nat)
         (password : jsstring) : M source jsstring :=
  match n with
  | O => ret password
  | S n' =>
      (r <- call (match rev with
                  | index_js => "RandInt"
                  | part_001 => "getRandomInt"
                  end)
              [VNumber (Int (Z.of_nat (List.length charset)))] ;;
       match r with
       | VNumber randomIndex =>
           match appendValue password (charAt charset randomIndex) with
           | Some password' => BasicPassword_loop charset n' password'
           | None => fun rnd => (Unmodelled, rnd)
           end
       | _ => fun rnd => (Unmodelled, rnd)
       end)%js
  end.

Definition BasicPassword (charset : jsstring) (length : number)
  : M source jsstring :=
  BasicPassword_loop charset (iterations length) [].

Definition Key (arg : option number) : M source value :=
  let length := default (Int 32) arg in
  let charset := js "abcdef0123456789" in
  call "generatePassword" [VString charset; VNumber length].

Definition RandInt (max : number) : M source number :=
  (randomBytes <- call "_getRandomBytes" [VNumber (Int 4)] ;;
   randomValue <- call "_bytesToNumber" [randomBytes] ;;
   match randomValue with
   | VNumber randomValue => ret (remainder randomValue max)
   | _ => fun rnd => (Unmodelled, rnd)
   end)%js.

Fixpoint getRandomBytes_draw (n : nat) : M source (list Z) :=
  match n with
  | O => ret []
  | S n' =>
      (b <- nextByte ;;
       rest <- getRandomBytes_draw n' ;;
       ret (b :: rest))%js
  end.

(** [Array.from({ length }, f)] makes its array with [new Array(len)],
    [len] being the length clamped below at 0 ([NaN] counts as 0): that
    throws for a length of [2^32] or more, before [f] is called once. *)
Definition invalidArrayLength (length : number) : bool :=
  match length with
  | Int z => (2 ^ 32 <=? z)%Z
  | NaN => false
  end.

Definition _getRandomBytes (length : number) : M source (list Z) :=
  if invalidArrayLength length
  then throw (RangeError (js "Invalid array length"))
  else getRandomBytes_draw (iterations length).

Definition _bytesToNumber (bytes : list Z) : Z :=
  let result :=
    fold_left (fun result b => bitor (shl result 8) b) bytes 0%Z in
  ushr0 result.

(** A method applied to an argument list of the shapes modelled. *)
Definition body (m : method) (args : list value) : M source value :=
  match m, args with
  | CustomPassword_m, [] => CustomPassword None
  | CustomPassword_m, VUndefined :: _ => CustomPassword None
  | CustomPassword_m, VOptions o :: _ => CustomPassword (Some o)
  | BasicPassword_m, VString charset :: VNumber length :: _ =>
      (s <- BasicPassword charset length ;; ret (VString s))%js
  | Key_m, [] => Key None
  | Key_m, VUndefined :: _ => Key None
  | Key_m, VNumber length :: _ => Key (Some length)
  | RandInt_m, VNumber max :: _ =>
      (r <- RandInt max ;; ret (VNumber r))%js
  | getRandomBytes_m, VNumber length :: _ =>
      (b <- _getRandomBytes length ;; ret (VBytes b))%js
  | bytesToNumber_m, VBytes bytes :: _ =>
      ret (VNumber (Int (_bytesToNumber bytes)))
  | _, _ => fun rnd => (Unmodelled, rnd)
  end.

End Methods.

(** [this.name(args)] on an instance, with the nesting of calls bounded
    by [fuel]. *)
Fixpoint send (rev : revision) (fuel : nat) (name : string)
         (args : list value) : M source value :=
  match getProperty name with
  | Method m =>
      match fuel with
      | O => fun rnd => (OutOfFuel, rnd)
      | S fuel' => body rev (send rev fuel') m args
      end
  | Builtin => fun rnd => (Unmodelled, rnd)
  | NotCallable | Absent => throw (notAFunction name)
  end.

(** The 32-bit word [RandInt] makes of the next four bytes of the
    source, and the source once [k] bytes have been read. *)
Definition nextWord (rnd : source) : Z :=
  _bytesToNumber
    (List.map (fun i => Z.of_N (Byte.to_N (rnd i))) [0; 1; 2; 3]%nat).

Definition after (k : nat) (rnd : source) : source :=
  fun i => rnd (k + i)%nat.

(** The text [undefined], [n] times over. *)
Fixpoint undefinedTimes (n : nat) : jsstring :=
  match n with
  | O => []
  | S n' => js "undefined" ++ undefinedTimes n'
  end.

End CipherCraft.


(* ===================================================================== *)
(** ** The specification's wording, for comparison with the code        *)
(* ===================================================================== *)

Module Claimed.

Local Open Scope Q_scope.

(** A class is present in a password when one of its code units belongs
    to the class. *)
Definition present (class : codeunit -> bool) (p : jsstring) : Prop :=
  Exists (fun c => class c = true) p.

(** The number of the four character classes present in a password. *)
Definition classesPresent (p : jsstring) : Z :=
  Z.b2z (bool_decide (present RegExp.lowercase p))
  + Z.b2z (bool_decide (present RegExp.uppercase p))
  + Z.b2z (bool_decide (present RegExp.digit p))
  + Z.b2z (bool_decide (present RegExp.nonWord p)).

(** A code unit outside [[A-Za-z0-9]]. *)
Definition nonAlphanumeric (c : codeunit) : bool :=
  negb (RegExp.lowercase c || RegExp.uppercase c || RegExp.digit c).

(** Special-characters score as worded: 25 when some code unit lies
    outside [[A-Za-z0-9]]. *)
Definition specialCharactersScore (p : jsstring) : Q :=
  if bool_decide (present nonAlphanumeric p) then 25 else 0.

(** The distinct tokens of a password that are entries of the word
    list. *)
Definition distinctMatches (toLowerCase : jsstring -> jsstring)
           (D : gset jsstring) (p : jsstring) : list jsstring :=
  remove_dups
    (List.filter (fun w => bool_decide (w ∈ D))
                 (RegExp.split RegExp.nonWord (toLowerCase p))).

(** Dictionary score as worded: ten points off per distinct matching
    token. *)
Definition dictionaryScore (toLowerCase : jsstring -> jsstring)
           (D : gset jsstring) (p : jsstring) : Q :=
  Qmax 0 (50 - 10 * inject_Z (Z.of_nat
                                (List.length (distinctMatches toLowerCase D p)))).

End Claimed.

(* ===================================================================== *)
(** ** Concrete data for the examples                                    *)
(* ===================================================================== *)

Module Sample.

(** A scorer whose word list holds two common passwords. *)
Definition scorer : CipherForge.instance := {|
  CipherForge.dictionaryFilePath := js "/app/node_modules/cipherforge/psw.txt";
  CipherForge.dictionary := list_to_set [js "password"; js "admin"]
|}.

(** The same word list, read from another place and in another order. *)
Definition scorer' : CipherForge.instance := {|
  CipherForge.dictionaryFilePath := js "psw.txt";
  CipherForge.dictionary := list_to_set [js "admin"; js "password"; js "admin"]
|}.

(** A scorer with an empty word list. *)
Definition emptyScorer : CipherForge.instance := {|
  CipherForge.dictionaryFilePath := js "psw.txt";
  CipherForge.dictionary := ∅
|}.

(** A word list of five words and a password made of them. *)
Definition fiveWords : CipherForge.instance := {|
  CipherForge.dictionaryFilePath := js "psw.txt";
  CipherForge.dictionary :=
    list_to_set [js "alpha"; js "bravo"; js "charlie"; js "delta"; js "echo"]
|}.

(** [path.join] of a POSIX host, without normalisation. *)
Fixpoint joinWith (sep : jsstring) (parts : list jsstring) : jsstring :=
  match parts with
  | [] => []
  | [x] => x
  | x :: rest => x ++ sep ++ joinWith sep rest
  end.

(** A Node.js process started from [/app] in which the dictionary file is
    missing.  The global object has its usual properties, and none named
    [path]. *)
Definition node : CipherForge.host := {|
  CipherForge.readFileSync := fun f =>
    inr (SystemError (js "ENOENT: no such file or directory, open '"
                        ++ f ++ js "'"));
  CipherForge.mainPath := Some (js "/app");
  CipherForge.globalNames :=
    ["globalThis"; "global"; "process"; "console"; "Buffer"; "Math"; "JSON";
     "Object"; "Array"; "String"; "Number"; "Set"; "Map"; "RegExp"; "Error";
     "parseFloat"; "parseInt"; "setTimeout"; "clearTimeout"; "setInterval";
     "clearInterval"; "setImmediate"; "queueMicrotask"; "URL";
     "TextEncoder"; "TextDecoder"; "fetch"; "crypto"]%string;
  CipherForge.pathJoin := joinWith (js "/")
|}.

(** A host like [node] whose global object does have a [path]. *)
Definition nodeWithPath : CipherForge.host := {|
  CipherForge.readFileSync := CipherForge.readFileSync node;
  CipherForge.mainPath := CipherForge.mainPath node;
  CipherForge.globalNames := "path"%string :: CipherForge.globalNames node;
  CipherForge.pathJoin := CipherForge.pathJoin node
|}.

(** A random source: the bytes [ff 01 80 07] and then [07] for ever. *)
Definition bytes : CipherCraft.source :=
  fun i =>
    match i with
    | 0%nat => Byte.xff
    | 1%nat => Byte.x01
    | 2%nat => Byte.x80
    | _ => Byte.x07
    end.

End Sample.

(* ===================================================================== *)
(** ** Reference readings of bytes and of arrays                         *)
(* ===================================================================== *)

Module Bytes.

(** The number a sequence of bytes denotes, most significant first. *)
Definition bigEndian (bytes : list Z) : Z :=
  fold_left (fun acc b => (acc * 256 + b)%Z) bytes 0%Z.

(** The first [k] bytes of a random source, as integers. *)
Definition drawn (rnd : CipherCraft.source) (k : nat) : list Z :=
  List.map (fun i => Z.of_N (Byte.to_N (rnd i))) (seq 0 k).

Definition isByte (b : Z) : Prop := (0 <= b < 256)%Z.

(** The character that the [i]-th big-endian word of the source picks in
    an alphabet: the one at index "word modulo length". *)
Definition pick (charset : jsstring) (rnd : CipherCraft.source) (i : nat)
  : option codeunit :=
  nth_error charset
            (Z.to_nat (bigEndian (drawn (CipherCraft.after (4 * i) rnd) 4)
                       mod Z.of_nat (List.length charset))).

End Bytes.

Module WordList.

(** A scorer whose word list has one more entry. *)
Definition addEntry (entry : jsstring) (this : CipherForge.instance)
  : CipherForge.instance := {|
  CipherForge.dictionaryFilePath := CipherForge.dictionaryFilePath this;
  CipherForge.dictionary := {[ entry ]} ∪ CipherForge.dictionary this
|}.

End WordList.

Module JSArray.

(** [parts.join(sep)] for an array of strings. *)
Fixpoint join (sep : jsstring) (parts : list jsstring) : jsstring :=
  match parts with
  | [] => []
  | [x] => x
  | x :: rest => x ++ sep ++ join sep rest
  end.

(** A string that begins with a line feed. *)
Definition startsWithLF (s : jsstring) : bool :=
  match s with
  | c :: _ => (c =? 10)%N
  | [] => false
  end.

(** A line: text without line feed and without carriage return. *)
Definition isLine (s : jsstring) : Prop :=
  ~ In 10%N s /\ ~ In 13%N s.

End JSArray.

(* ===================================================================== *)
(** ** Whole-word regular expressions                                    *)
(* ===================================================================== *)

Module WordRegExp.

(** Whether the code unit at one side of a position, if there is one, is
    a word character. *)
Definition isWordChar (c : option codeunit) : bool :=
  match c with
  | Some c => RegExp.word c
  | None => false
  end.

(** [\b] between two code units: exactly one side is a word character. *)
Definition boundary (before after : option codeunit) : bool :=
  xorb (isWordChar before) (isWordChar after).

Fixpoint startsWith (w s : jsstring) : bool :=
  match w, s with
  | [], _ => true
  | a :: w', b :: s' => (a =? b)%N && startsWith w' s'
  | _ :: _, [] => false
  end.

(** [\bw\b] for a literal [w], matched at the beginning of [s], with
    [prev] the code unit before that point. *)
Definition wholeWordHere (prev : option codeunit) (w s : jsstring) : bool :=
  boundary prev (head s)
  && startsWith w s
  && boundary (List.last (List.map Some w) prev)
              (head (skipn (List.length w) s)).

(** ... matched at some point of [s]. *)
Fixpoint wholeWordFrom (prev : option codeunit) (w s : jsstring) : bool :=
  wholeWordHere prev w s
  || match s with
     | [] => false
     | c :: s' => wholeWordFrom (Some c) w s'
     end.

(** [new RegExp('\\b' + w + '\\b').test(s)], and [s.match] of it with the
    [g] flag being not null, for a word [w] of letters, digits and
    underscores. *)
Definition wholeWord (w s : jsstring) : bool := wholeWordFrom None w s.

Definition nonEmpty (s : jsstring) : bool :=
  match s with
  | [] => false
  | _ :: _ => true
  end.

(** [s.match(/\b\w+\b/g)]: the maximal runs of word characters, in order
    (the empty list stands for [null]). *)
Definition wordRuns (s : jsstring) : list jsstring :=
  List.filter nonEmpty (RegExp.split RegExp.nonWord s).

(** The word characters a string begins with. *)
Fixpoint leadingWord (s : jsstring) : jsstring :=
  match s with
  | [] => []
  | c :: s' => if RegExp.word c then c :: leadingWord s' else []
  end.

(** The sum of the lengths of some strings. *)
Definition totalLength (l : list jsstring) : Z :=
  fold_right (fun w acc => (Z.of_nat (List.length w) + acc)%Z) 0%Z l.

End WordRegExp.

(* ===================================================================== *)
(** ** The scorers of index.js                                           *)
(* ===================================================================== *)

(** The first text of [index.js] (its [CipherForge] has no constructor
    and reads the words of [psw.js]). *)
Module IndexJs.

Local Open Scope Q_scope.

(** A number of the scorer: a rational, an infinity, or [NaN]. *)
Inductive number : Type :=
| Finite (q : Q)
| PlusInfinity
| MinusInfinity
| NaN.

Definition _calculateLengthScore (password : jsstring) : Q :=
  let minLength := 8%Z in
  let maxLength := 30%Z in
  let len := Z.of_nat (List.length password) in
  if (len <? minLength)%Z then 0
  else if (maxLength <? len)%Z then 100
  else (inject_Z (len - minLength) / inject_Z (maxLength - minLength)) * 50
       + 25.

(** The length score is [25 + 25 * (n - 8) / 11] from 8 to 30 code units,
    in twenty-seconds. *)
Definition lengthPoints (n : Z) : Z :=
  if (n <? 8)%Z then 0%Z
  else if (30 <? n)%Z then 2200%Z
  else (550 + 50 * (n - 8))%Z.

(** [/(\w)\1{2,}/.test(s)]: a word character followed twice by itself. *)
Fixpoint hasRepetitiveSequence (s : jsstring) : bool :=
  match s with
  | a :: ((b :: c :: _) as s') =>
      (RegExp.word a && (b =? a)%N && (c =? a)%N)
      || hasRepetitiveSequence s'
  | _ => false
  end.

Definition letter (c : codeunit) : bool :=
  RegExp.lowercase c || RegExp.uppercase c.

(** [/[a-zA-Z]{3,}/.test(s)]: three letters in a row. *)
Fixpoint hasConsecutiveLetterSequence (s : jsstring) : bool :=
  match s with
  | a :: ((b :: c :: _) as s') =>
      (letter a && letter b && letter c)
      || hasConsecutiveLetterSequence s'
  | _ => false
  end.

Definition _calculateDiversityScore (password : jsstring) : Q :=
  let diversityScore :=
    fold_left
      (fun score set => score + (if RegExp.test set password then 50 else 0))
      CipherForge.characterSets 0 in
  let diversityScore :=
    if hasRepetitiveSequence password then 0 else diversityScore in
  let diversityScore :=
    if hasConsecutiveLetterSequence password then diversityScore + 50
    else diversityScore in
  Qmin diversityScore 100.

(** [/[^a-zA-Z0-9]/] on one code unit. *)
Definition specialCharactersRegex (c : codeunit) : bool :=
  negb (RegExp.lowercase c || RegExp.uppercase c || RegExp.digit c).

(** The loop of [_calculateSpecialCharactersScore]: the number of code
    units the regular expression accepts. *)
Fixpoint countSpecial (s : jsstring) (specialCharactersCount : Z) : Z :=
  match s with
  | [] => specialCharactersCount
  | currentChar :: s' =>
      countSpecial s' (if specialCharactersRegex currentChar
                       then (specialCharactersCount + 1)%Z
                       else specialCharactersCount)
  end.

(** [a / b] on two integers: zero by zero is [NaN], anything else by zero
    an infinity. *)
Definition divide (a b : Z) : number :=
  if (b =? 0)%Z then
    if (a =? 0)%Z then NaN
    else if (0 <? a)%Z then PlusInfinity else MinusInfinity
  else Finite (inject_Z a / inject_Z b).

(** [x * 100] *)
Definition times100 (x : number) : number :=
  match x with
  | Finite q => Finite (q * 100)
  | other => other
  end.

(** [Math.min(x, 100)] *)
Definition min100 (x : number) : number :=
  match x with
  | Finite q => Finite (Qmin q 100)
  | PlusInfinity => Finite 100
  | MinusInfinity => MinusInfinity
  | NaN => NaN
  end.

Section Logging.

(** The text a number takes in a template literal. *)
Variable numberToString : number -> jsstring.

Definition consoleLog (line : jsstring) : M CipherForge.console unit :=
  fun out => (Return tt, out ++ [line]).

Definition _calculateSpecialCharactersScore (password : jsstring)
  : M CipherForge.console number :=
  let totalCharacters := Z.of_nat (List.length password) in
  let specialCharactersCount := countSpecial password 0 in
  let percentageSpecialCharacters :=
    times100 (divide specialCharactersCount totalCharacters) in
  let specialCharactersScore := min100 percentageSpecialCharacters in
  (_ <- consoleLog (js "Special Characters Score: "
                      ++ numberToString specialCharactersScore) ;;
   ret specialCharactersScore)%js.

End Logging.

(** [/^[a-zA-Z0-9]+$/.test(word)] *)
Definition alphanumericRegex (word : jsstring) : bool :=
  WordRegExp.nonEmpty word
  && forallb (fun c => RegExp.lowercase c || RegExp.uppercase c
                       || RegExp.digit c) word.

(** The loop of [_calculateDictionaryScore] over the words of [psw.js]:
    the count of characters and the words found so far. *)
Fixpoint dictionaryLoop (pwd : list jsstring) (password : jsstring)
         (characterCountInDictionary : Z)
         (uniqueWordsInPassword : list jsstring) : Z * list jsstring :=
  match pwd with
  | [] => (characterCountInDictionary, uniqueWordsInPassword)
  | word :: rest =>
      if alphanumericRegex word then
        if WordRegExp.wholeWord word password
           && negb (bool_decide (word ∈ uniqueWordsInPassword))
        then dictionaryLoop rest password
               (characterCountInDictionary + Z.of_nat (List.length word))%Z
               (uniqueWordsInPassword ++ [word])
        else dictionaryLoop rest password characterCountInDictionary
                            uniqueWordsInPassword
      else dictionaryLoop rest password characterCountInDictionary
                          uniqueWordsInPassword
  end.

(** [100 - x] *)
Definition from100 (x : number) : number :=
  match x with
  | Finite q => Finite (100 - q)
  | PlusInfinity => MinusInfinity
  | MinusInfinity => PlusInfinity
  | NaN => NaN
  end.

(** [pwd] is the array that [psw.js] exports. *)
Definition _calculateDictionaryScore (pwd : list jsstring)
           (password : jsstring) : number :=
  let characterCountInDictionary :=
    fst (dictionaryLoop pwd password 0%Z []) in
  from100 (times100 (divide characterCountInDictionary
                            (Z.of_nat (List.length password)))).

End IndexJs.

(** The second text of [index.js] (its [CipherForge] keeps the dictionary
    as one string). *)
Module IndexJsSecond.

Local Open Scope Q_scope.

Definition _calculateLengthScore (password : jsstring) : Q :=
  let minLength := 8%Z in
  let maxLength := 20%Z in
  let len := Z.of_nat (List.length password) in
  if (len <? minLength)%Z then 0
  else if (maxLength <? len)%Z then 50
  else (inject_Z (len - minLength) / inject_Z (maxLength - minLength)) * 50
       + 25.

(** The length score is [25 + 25 * (n - 8) / 6] from 8 to 20 code units, in
    sixths. *)
Definition lengthPoints (n : Z) : Z :=
  if (n <? 8)%Z then 0%Z
  else if (20 <? n)%Z then 300%Z
  else (150 + 25 * (n - 8))%Z.

(** [/\d{3}/.test(s)]: three digits in a row. *)
Fixpoint hasNumberSequence (s : jsstring) : bool :=
  match s with
  | a :: ((b :: c :: _) as s') =>
      (RegExp.digit a && RegExp.digit b && RegExp.digit c)
      || hasNumberSequence s'
  | _ => false
  end.

(** Matching with the [i] flag and without the [u] flag: a pattern letter
    accepts itself in either case and nothing else. *)
Definition foldCase (c : codeunit) : codeunit :=
  if RegExp.uppercase c then (c + 32)%N else c.

(** The alternatives of the regular expression for letter sequences. *)
Definition letterSequences : list jsstring :=
  [js "abc"; js "bcd"; js "cde"; js "def"; js "efg"; js "fgh"; js "ghi";
   js "hij"; js "ijk"; js "jkl"; js "klm"; js "lmn"; js "mno"; js "nop";
   js "opq"; js "pqr"; js "qrs"; js "rst"; js "stu"; js "tuv"; js "uvw";
   js "vwx"; js "wxy"; js "xyz"].

(** Three code units that one of the alternatives accepts. *)
Definition alphabetical (a b c : codeunit) : bool :=
  existsb (fun alternative =>
             bool_decide (alternative = [foldCase a; foldCase b; foldCase c]))
          letterSequences.

Fixpoint hasLetterSequence (s : jsstring) : bool :=
  match s with
  | a :: ((b :: c :: _) as s') =>
      alphabetical a b c || hasLetterSequence s'
  | _ => false
  end.

Definition _calculateDiversityScore (password : jsstring) : Q :=
  let diversityScore :=
    fold_left
      (fun score set => score + (if RegExp.test set password then 25 else 0))
      CipherForge.characterSets 0 in
  if hasNumberSequence password || hasLetterSequence password then 0
  else diversityScore.

Definition _calculateSpecialCharactersScore (password : jsstring) : Q :=
  if RegExp.test CipherForge.specialCharacter password then 25 + 25 else 0.

(** [s.replace(/\s+/g, '')] *)
Definition removeWhiteSpace (s : jsstring) : jsstring :=
  List.filter (fun c => negb (RegExp.whiteSpace c)) s.

Fixpoint dropWhile (f : codeunit -> bool) (s : jsstring) : jsstring :=
  match s with
  | [] => []
  | c :: s' => if f c then dropWhile f s' else s
  end.

(** [s.trim()] *)
Definition trim (s : jsstring) : jsstring :=
  rev (dropWhile RegExp.whiteSpace (rev (dropWhile RegExp.whiteSpace s))).

(** The fields the constructor assigns: here the dictionary is one
    string. *)
Record instance : Type := {
  dictionaryFilePath : jsstring;
  dictionary : jsstring
}.

Definition loadDictionary (h : CipherForge.host)
           (dictionaryFilePath : jsstring) : M CipherForge.console jsstring :=
  match CipherForge.readFileSync h dictionaryFilePath with
  | inl data =>
      let wordsArray :=
        List.filter WordRegExp.nonEmpty
                    (List.map trim (RegExp.splitLines data)) in
      let wordsString := JSArray.join (js ",") wordsArray in
      ret wordsString
  | inr error =>
      (_ <- CipherForge.consoleError
              (js "Error reading the file " ++ dictionaryFilePath
                 ++ js ": " ++ message_of error) ;;
       ret [])%js
  end.

(** [dirname] is the [__dirname] of the module. *)
Definition constructor (h : CipherForge.host) (dirname : jsstring)
  : M CipherForge.console instance :=
  if CipherForge.bound h "path" then
    let dictionaryFilePath :=
      CipherForge.pathJoin h [dirname; js "psw.txt"] in
    (words <- loadDictionary h dictionaryFilePath ;;
     ret {| dictionaryFilePath := dictionaryFilePath;
            dictionary := words |})%js
  else throw (ReferenceError (js "path is not defined")).

Section Dictionary.

Variable toLowerCase : jsstring -> jsstring.

Definition wordsPresent (this : instance) (password : jsstring)
  : list jsstring :=
  let normalizedPassword := toLowerCase (removeWhiteSpace password) in
  List.filter (fun word => WordRegExp.wholeWord word normalizedPassword)
              (WordRegExp.wordRuns (toLowerCase (dictionary this))).

Definition _calculateDictionaryScore (this : instance)
           (password : jsstring) : Q :=
  let wordsInDictionary :=
    WordRegExp.wordRuns (toLowerCase (dictionary this)) in
  match wordsInDictionary with
  | [] => 100
  | _ :: _ =>
      let wordsPresentInString :=
        Z.of_nat (List.length (wordsPresent this password)) in
      let percentage :=
        (inject_Z wordsPresentInString
         / inject_Z (Z.of_nat (List.length wordsInDictionary))) * 100 in
      if Qeq_bool percentage 0 then 100 else percentage
  end.

End Dictionary.

End IndexJsSecond.

(* ===================================================================== *)
(** ** The scorer's methods as calls                                     *)
(* ===================================================================== *)

(** The methods of [CipherForge] of src/unnamed/part_001 once more,
    statement by statement, as computations over everything the code of
    the file reaches besides its arguments and local constants: the fields
    of [this], the console, the file system and the random source. *)
Module Calls.

Import CipherForge.

Local Open Scope Q_scope.

Record world : Type := {
  (** The fields of the scorer object. *)
  this : instance;
  (** The lines written with [console.error], oldest first. *)
  out : console;
  (** The paths given to [fs.readFileSync], oldest first. *)
  reads : list jsstring;
  (** The bytes [Math.random] has still to give. *)
  random : CipherCraft.source
}.

(** [this.dictionaryFilePath] and [this.dictionary], read. *)
Definition getDictionaryFilePath : M world jsstring :=
  fun w => (Return (dictionaryFilePath (this w)), w).

Definition getDictionary : M world (gset jsstring) :=
  fun w => (Return (dictionary (this w)), w).

(** [console.error(line)] *)
Definition consoleError (line : jsstring) : M world unit :=
  fun w => (Return tt,
            {| this := this w; out := out w ++ [line];
               reads := reads w; random := random w |}).

(** [fs.readFileSync(path, 'utf-8')] *)
Definition readFileSync (h : host) (path : jsstring) : M world jsstring :=
  fun w =>
    let w' := {| this := this w; out := out w;
                 reads := reads w ++ [path]; random := random w |} in
    match CipherForge.readFileSync h path with
    | inl data => (Return data, w')
    | inr error => (Throw error, w')
    end.

(** A call of a method of the generator. *)
Definition generator {A : Type} (m : M CipherCraft.source A) : M world A :=
  fun w =>
    let (r, rnd) := m (random w) in
    (r, {| this := this w; out := out w; reads := reads w; random := rnd |}).

(** [try { body } catch (error) { handler }] *)
Definition tryCatch {S A : Type} (body : M S A) (handler : error -> M S A)
  : M S A :=
  fun s =>
    match body s with
    | (Throw error, s') => handler error s'
    | r => r
    end.

(** [array.reduce(callback, initialValue)] and [array.filter(callback)],
    the callback being run on each element in order. *)
Fixpoint arrayReduce {S A B : Type} (callback : B -> A -> M S B)
         (array : list A) (accumulator : B) : M S B :=
  match array with
  | [] => ret accumulator
  | x :: rest =>
      (next <- callback accumulator x ;;
       arrayReduce callback rest next)%js
  end.

Fixpoint arrayFilter {S A : Type} (callback : A -> M S bool)
         (array : list A) : M S (list A) :=
  match array with
  | [] => ret []
  | x :: rest =>
      (keep <- callback x ;;
       kept <- arrayFilter callback rest ;;
       ret (if keep then x :: kept else kept))%js
  end.

Definition loadDictionary (h : host) : M world (list jsstring) :=
  tryCatch
    (dictionaryFilePath <- getDictionaryFilePath ;;
     data <- readFileSync h dictionaryFilePath ;;
     ret (List.filter RegExp.trimNonEmpty (RegExp.splitLines data)))%js
    (fun error =>
       dictionaryFilePath <- getDictionaryFilePath ;;
       _ <- consoleError (js "Error reading file " ++ dictionaryFilePath
                            ++ js ": " ++ message_of error) ;;
       ret [])%js.

Definition calculateLengthScore (password : jsstring) : M world Q :=
  let minLength := 8%Z in
  let maxLength := 20%Z in
  let length := Z.of_nat (List.length password) in
  if (length <? minLength)%Z then ret 0
  else if (maxLength <? length)%Z then ret 50
  else ret ((inject_Z (length - minLength)
             / inject_Z (maxLength - minLength)) * 50).

(** The regular expressions are made anew at each call and have no [g]
    or [y] flag, so that [test] keeps no position in them. *)
Definition calculateDiversityScore (password : jsstring) : M world Q :=
  let characterSets :=
    [RegExp.lowercase; RegExp.uppercase; RegExp.digit; RegExp.nonWord] in
  (diversityScore <-
     arrayReduce
       (fun score set =>
          ret (score + (if RegExp.test set password then 25 else 0)))
       characterSets 0 ;;
   ret diversityScore)%js.

Definition calculateSpecialCharactersScore (password : jsstring)
  : M world Q :=
  let specialCharacters := specialCharacter in
  ret (if RegExp.test specialCharacters password then 25 else 0).

(** [this.dictionary.has(word)] *)
Definition dictionaryHas (word : jsstring) : M world bool :=
  (dictionary <- getDictionary ;; ret (has dictionary word))%js.

Section Scorer.

Variable toLowerCase : jsstring -> jsstring.

Definition calculateDictionaryScore (password : jsstring) : M world Q :=
  let lowercasePassword := toLowerCase password in
  let wordsInPassword := RegExp.split RegExp.nonWord lowercasePassword in
  (matchingWords <-
     arrayFilter (fun word => dictionaryHas word) wordsInPassword ;;
   let dictionaryScore :=
     Qmax 0 (50 - inject_Z (Z.of_nat (List.length matchingWords)) * 10) in
   ret dictionaryScore)%js.

Definition Test (password : jsstring) : M world ScoreReport :=
  (lengthScore <- calculateLengthScore password ;;
   diversityScore <- calculateDiversityScore password ;;
   specialCharactersScore <- calculateSpecialCharactersScore password ;;
   dictionaryScore <- calculateDictionaryScore password ;;
   let totalScore :=
     lengthScore + diversityScore + specialCharactersScore
     + dictionaryScore in
   ret {| isSecure := Qle_bool 75 totalScore;
          totalScore := totalScore;
          details := {| lengthScore := lengthScore;
                        diversityScore := diversityScore;
                        specialCharactersScore := specialCharactersScore;
                        dictionaryScore := dictionaryScore |} |})%js.

End Scorer.

(** A process that has built a scorer, has read its word list and has
    written one line since. *)
Definition running (scorer : instance) : world := {|
  this := scorer;
  out := [js "started"];
  reads := [dictionaryFilePath scorer];
  random := Sample.bytes
|}.

End Calls.

(* ===================================================================== *)
(** ** Facts about the regular-expression model                          *)
(* ===================================================================== *)

Lemma test_present (class : codeunit -> bool) (p : jsstring) :
  RegExp.test class p = true <-> Claimed.present class p.
Proof.
  unfold RegExp.test, Claimed.present.
  rewrite existsb_exists, Exists_exists.
  split; intros (c & Hc & Hcls); exists c; split; trivial;
    now apply list_elem_of_In.
Qed.

Lemma test_bool_decide (class : codeunit -> bool) (p : jsstring) :
  RegExp.test class p = bool_decide (Claimed.present class p).
Proof.
  destruct (RegExp.test class p) eqn:E.
  - symmetry. apply bool_decide_eq_true. now apply test_present.
  - symmetry. apply bool_decide_eq_false. rewrite <- test_present.
    congruence.
Qed.

Lemma test_app (class : codeunit -> bool) (p q : jsstring) :
  RegExp.test class (p ++ q) = RegExp.test class p || RegExp.test class q.
Proof. unfold RegExp.test. apply existsb_app. Qed.

Lemma test_same_units (class : codeunit -> bool) (p q : jsstring) :
  (forall c, c ∈ p <-> c ∈ q) -> RegExp.test class p = RegExp.test class q.
Proof.
  intros H. rewrite !test_bool_decide. apply bool_decide_ext.
  unfold Claimed.present. rewrite !Exists_exists.
  split; intros (c & Hc & Hcls); exists c; split; trivial; now apply H.
Qed.

(* ===================================================================== *)
(** ** The scorer                                                        *)
(* ===================================================================== *)

Section ScorerFacts.

Local Open Scope Q_scope.
Import CipherForge.

Variable toLowerCase : jsstring -> jsstring.

(** C1. [Test] reports the four sub-scores it computed, their plain sum
    as [totalScore], and [isSecure] exactly when that sum is at least
    75. *)
Theorem Test_sum_and_verdict (this : instance) (password : jsstring) :
  let report := Test toLowerCase this password in
  let d := details report in
  lengthScore d = calculateLengthScore password
  /\ diversityScore d = calculateDiversityScore password
  /\ specialCharactersScore d = calculateSpecialCharactersScore password
  /\ dictionaryScore d = calculateDictionaryScore toLowerCase this password
  /\ totalScore report
     = lengthScore d + diversityScore d + specialCharactersScore d
       + dictionaryScore d
  /\ (isSecure report = true <-> 75 <= totalScore report)
  /\ (isSecure report = false <-> totalScore report < 75).
Proof.
  cbv zeta. unfold Test. cbn [details lengthScore diversityScore
    specialCharactersScore dictionaryScore totalScore isSecure].
  repeat split; try reflexivity.
  - apply Qle_bool_iff.
  - apply Qle_bool_iff.
  - intros H. apply Qnot_le_lt. rewrite <- Qle_bool_iff. congruence.
  - intros H. apply Qlt_not_le in H. rewrite <- Qle_bool_iff in H.
    now destruct (Qle_bool 75 _).
Qed.

(** C4. The length score is 0 below 8 code units, 50 above 20, and in
    between the quotient [(n - 8) / (20 - 8)] times 50: a line from 0 at
    length 8 to 50 at length 20, with nothing added. *)
Theorem length_score_piecewise (password : jsstring) :
  let n := Z.of_nat (List.length password) in
  ((n < 8)%Z -> calculateLengthScore password = 0)
  /\ ((20 < n)%Z -> calculateLengthScore password = 50)
  /\ ((8 <= n <= 20)%Z ->
      calculateLengthScore password
      == (inject_Z (n - 8) / inject_Z (20 - 8)) * 50
      /\ calculateLengthScore password == inject_Z (25 * (n - 8)) / 6
      /\ 0 <= calculateLengthScore password <= 50)
  /\ (n = 8%Z -> calculateLengthScore password == 0)
  /\ (n = 20%Z -> calculateLengthScore password == 50).
Proof.
  cbv zeta. unfold calculateLengthScore.
  set (n := Z.of_nat (List.length password)).
  assert (Hmid : (8 <= n <= 20)%Z ->
                 (inject_Z (n - 8) / inject_Z (20 - 8)) * 50
                 == inject_Z (25 * (n - 8)) / 6).
  { intros _. rewrite inject_Z_mult. change (inject_Z (20 - 8)) with 12.
    change (inject_Z 25) with 25. field. }
  repeat split.
  - intros H. destruct (Z.ltb_spec n 8); [reflexivity | lia].
  - intros H. destruct (Z.ltb_spec n 8); [lia |].
    destruct (Z.ltb_spec 20 n); [reflexivity | lia].
  - destruct (Z.ltb_spec n 8); [lia |].
    destruct (Z.ltb_spec 20 n); [lia | reflexivity].
  - destruct (Z.ltb_spec n 8); [lia |].
    destruct (Z.ltb_spec 20 n); [lia |]. now apply Hmid.
  - destruct (Z.ltb_spec n 8); [lia |].
    destruct (Z.ltb_spec 20 n); [lia |]. rewrite (Hmid H).
    apply Qle_shift_div_l; [reflexivity |].
    rewrite Qmult_0_l. change 0 with (inject_Z 0). rewrite <- Zle_Qle. lia.
  - destruct (Z.ltb_spec n 8); [lia |].
    destruct (Z.ltb_spec 20 n); [lia |]. rewrite (Hmid H).
    apply Qle_shift_div_r; [reflexivity |].
    change (50 * 6) with (inject_Z 300). rewrite <- Zle_Qle. lia.
  - intros ->. reflexivity.
  - intros ->. reflexivity.
Qed.

(** C4, at a password of nine code units: one twelfth of 50. *)
Lemma length_score_piecewise_witness :
  calculateLengthScore (js "Abcdefg1!") == (1 / 12) * 50.
Proof.
  destruct (length_score_piecewise (js "Abcdefg1!")) as (_ & _ & H & _).
  destruct H as (H & _); [simpl; lia | exact H].
Defined.

(** C5. The diversity score is 25 for each of the four classes
    (lowercase letter, uppercase letter, digit, non-word character) that
    has a code unit in the password, so at most 100.  Nothing is taken
    off for repetition or runs: the score depends only on which code
    units occur, and more text never lowers it. *)
Theorem diversity_score_classes (password : jsstring) :
  calculateDiversityScore password
  == inject_Z (25 * Claimed.classesPresent password)
  /\ 0 <= calculateDiversityScore password <= 100
  /\ (forall q, (forall c, c ∈ password <-> c ∈ q) ->
                calculateDiversityScore q = calculateDiversityScore password)
  /\ (forall q, calculateDiversityScore password
                <= calculateDiversityScore (password ++ q)
                /\ calculateDiversityScore password
                   <= calculateDiversityScore (q ++ password)).
Proof.
  unfold calculateDiversityScore, characterSets. cbn [fold_left].
  repeat split.
  - unfold Claimed.classesPresent. rewrite <- !test_bool_decide.
    destruct (RegExp.test RegExp.lowercase password),
      (RegExp.test RegExp.uppercase password),
      (RegExp.test RegExp.digit password),
      (RegExp.test RegExp.nonWord password); reflexivity.
  - destruct (RegExp.test RegExp.lowercase password),
      (RegExp.test RegExp.uppercase password),
      (RegExp.test RegExp.digit password),
      (RegExp.test RegExp.nonWord password); discriminate.
  - destruct (RegExp.test RegExp.lowercase password),
      (RegExp.test RegExp.uppercase password),
      (RegExp.test RegExp.digit password),
      (RegExp.test RegExp.nonWord password); discriminate.
  - intros q H.
    now rewrite !(test_same_units _ password q H).
  - rewrite !test_app.
    destruct (RegExp.test RegExp.lowercase password),
      (RegExp.test RegExp.uppercase password),
      (RegExp.test RegExp.digit password),
      (RegExp.test RegExp.nonWord password),
      (RegExp.test RegExp.lowercase q),
      (RegExp.test RegExp.uppercase q),
      (RegExp.test RegExp.digit q),
      (RegExp.test RegExp.nonWord q); discriminate.
  - rewrite !test_app.
    destruct (RegExp.test RegExp.lowercase password),
      (RegExp.test RegExp.uppercase password),
      (RegExp.test RegExp.digit password),
      (RegExp.test RegExp.nonWord password),
      (RegExp.test RegExp.lowercase q),
      (RegExp.test RegExp.uppercase q),
      (RegExp.test RegExp.digit q),
      (RegExp.test RegExp.nonWord q); discriminate.
Qed.

(** C5, on two passwords with the same code units: repeating and
    reordering them changes nothing. *)
Lemma diversity_score_classes_witness :
  calculateDiversityScore (js "aaa111bbbabab") = calculateDiversityScore (js "ab1").
Proof.
  destruct (diversity_score_classes (js "ab1")) as (_ & _ & H & _).
  apply H. intros c. rewrite !list_elem_of_In. cbn.
  intuition congruence.
Defined.

(** *** Special characters *)

Lemma specialCharacter_listed (c : codeunit) :
  specialCharacter c = true <-> c ∈ specialCharacters.
Proof.
  unfold specialCharacter. rewrite existsb_exists, list_elem_of_In.
  split.
  - intros (x & Hin & Heq). apply N.eqb_eq in Heq. now subst.
  - intros Hin. exists c. split; [exact Hin | apply N.eqb_refl].
Qed.

Lemma listed_nonAlphanumeric (c : codeunit) :
  specialCharacter c = true -> Claimed.nonAlphanumeric c = true.
Proof.
  rewrite specialCharacter_listed, list_elem_of_In.
  intros Hin. vm_compute in Hin.
  repeat (destruct Hin as [<- | Hin]; [reflexivity |]). contradiction.
Qed.

Lemma special_score_test (password : jsstring) :
  calculateSpecialCharactersScore password
  = if RegExp.test specialCharacter password then 25 else 0.
Proof. reflexivity. Qed.

(** C3, as the code has it. The special-characters score is 25 when the
    password holds one of the listed characters (the punctuation of the
    class in the source) and 0 otherwise; how many there are makes no
    difference.  A listed character is always outside [[A-Za-z0-9]], so
    the score never exceeds the worded one. *)
Theorem special_score_listed (password : jsstring) :
  (calculateSpecialCharactersScore password = 25
   <-> exists c, c ∈ password /\ c ∈ specialCharacters)
  /\ (calculateSpecialCharactersScore password = 0
      <-> forall c, c ∈ password -> c ∉ specialCharacters)
  /\ (forall q, calculateSpecialCharactersScore (password ++ q) = 25
                <-> calculateSpecialCharactersScore password = 25
                    \/ calculateSpecialCharactersScore q = 25)
  /\ calculateSpecialCharactersScore password
     <= Claimed.specialCharactersScore password.
Proof.
  assert (Hex : forall p : jsstring,
             RegExp.test specialCharacter p = true
             <-> exists c, c ∈ p /\ c ∈ specialCharacters).
  { intros p. rewrite test_present. unfold Claimed.present.
    rewrite Exists_exists.
    split; intros (c & Hc & Hl); exists c; split; trivial;
      now apply specialCharacter_listed. }
  repeat split.
  - rewrite special_score_test.
    destruct (RegExp.test specialCharacter password) eqn:E.
    + intros _. now apply Hex.
    + discriminate.
  - intros H. apply Hex in H. rewrite special_score_test, H. reflexivity.
  - rewrite special_score_test.
    destruct (RegExp.test specialCharacter password) eqn:E; [discriminate |].
    intros _ c Hc Hl.
    assert (RegExp.test specialCharacter password = true) by (apply Hex; eauto).
    congruence.
  - intros H. rewrite special_score_test.
    destruct (RegExp.test specialCharacter password) eqn:E; [| reflexivity].
    apply Hex in E. destruct E as (c & Hc & Hl). now destruct (H c Hc).
  - rewrite !special_score_test, test_app.
    destruct (RegExp.test specialCharacter password),
      (RegExp.test specialCharacter q); cbn; intros H;
      first [now left | now right | discriminate].
  - rewrite !special_score_test, test_app.
    destruct (RegExp.test specialCharacter password),
      (RegExp.test specialCharacter q); cbn; intros [H | H];
      first [reflexivity | discriminate].
  - rewrite special_score_test. unfold Claimed.specialCharactersScore.
    destruct (RegExp.test specialCharacter password) eqn:E.
    + rewrite bool_decide_eq_true_2; [discriminate |].
      apply test_present in E. unfold Claimed.present in *.
      rewrite Exists_exists in *. destruct E as (c & Hc & Hl).
      exists c. split; [exact Hc | now apply listed_nonAlphanumeric].
    + destruct (bool_decide _); discriminate.
Qed.

(** C3, on a password with one listed character. *)
Lemma special_score_listed_witness :
  calculateSpecialCharactersScore (js "pass-word") = 25.
Proof.
  destruct (special_score_listed (js "pass-word")) as ((_ & H) & _).
  apply H. exists 45%N. split; apply list_elem_of_In; cbn; tauto.
Defined.

(** C3 as worded fails: a space, a backtick and a tilde are outside
    [[A-Za-z0-9]], yet a password made of them scores 0, not 25. *)
Lemma special_score_counterexample :
  ~ calculateSpecialCharactersScore (js " ")
    == Claimed.specialCharactersScore (js " ")
  /\ ~ calculateSpecialCharactersScore (js "`")
       == Claimed.specialCharactersScore (js "`")
  /\ ~ calculateSpecialCharactersScore (js "~")
       == Claimed.specialCharactersScore (js "~").
Proof. repeat split; vm_compute; discriminate. Qed.

(** *** Dictionary *)

Lemma penalty_as_integer (n : Z) :
  Qmax 0 (50 - inject_Z n * 10) == inject_Z (Z.max 0 (50 - 10 * n)).
Proof.
  assert (E : 50 - inject_Z n * 10 == inject_Z (50 - 10 * n)).
  { unfold Qeq, Qminus, Qplus, Qopp, Qmult, inject_Z. simpl. lia. }
  rewrite E. destruct (Z.le_gt_cases 0 (50 - 10 * n)) as [H | H].
  - rewrite Z.max_r by exact H. apply Q.max_r.
    change 0 with (inject_Z 0). now rewrite <- Zle_Qle.
  - rewrite Z.max_l by lia. apply Q.max_l.
    change 0 with (inject_Z 0). rewrite <- Zle_Qle. lia.
Qed.

Lemma penalty_as_integer' (n : Z) :
  Qmax 0 (50 - 10 * inject_Z n) == inject_Z (Z.max 0 (50 - 10 * n)).
Proof.
  rewrite <- penalty_as_integer.
  assert (E : 10 * inject_Z n == inject_Z n * 10) by apply Qmult_comm.
  now rewrite E.
Qed.

Lemma remove_dups_length_le (l : list jsstring) :
  (List.length (remove_dups l) <= List.length l)%nat.
Proof.
  apply submseteq_length, NoDup_submseteq.
  - apply NoDup_remove_dups.
  - intros x. now rewrite elem_of_remove_dups.
Qed.

Lemma remove_dups_NoDup_length (l : list jsstring) :
  NoDup l -> List.length (remove_dups l) = List.length l.
Proof.
  intros H. apply Nat.le_antisymm; [apply remove_dups_length_le |].
  apply submseteq_length, NoDup_submseteq; [exact H |].
  intros x. now rewrite elem_of_remove_dups.
Qed.

Lemma remove_dups_nil_inv (l : list jsstring) : remove_dups l = [] -> l = [].
Proof.
  destruct l as [| x l]; [reflexivity |]. intros H.
  assert (Hx : x ∈ remove_dups (x :: l))
    by (apply elem_of_remove_dups; left).
  rewrite H in Hx. inversion Hx.
Qed.

Lemma distinctMatches_matchingWords (this : instance) (password : jsstring) :
  Claimed.distinctMatches toLowerCase (dictionary this) password
  = remove_dups (matchingWords toLowerCase this password).
Proof. reflexivity. Qed.

(** C2, as the code has it.  The dictionary score is
    [max(0, 50 - 10 * k)] where [k] counts the tokens of the case-folded
    password that are entries of the word list, a token counted every
    time it occurs.  With [m] the number of distinct such tokens,
    [m <= k]; the score is the worded [max(0, 50 - 10 * m)] when no
    matching token occurs twice, it is 50 when [m = 0] and 0 when
    [m >= 5]. *)
Theorem dictionary_score_occurrences (this : instance) (password : jsstring) :
  let k := Z.of_nat (List.length (matchingWords toLowerCase this password)) in
  let m := Z.of_nat (List.length (Claimed.distinctMatches
                                    toLowerCase (dictionary this) password)) in
  calculateDictionaryScore toLowerCase this password
  == inject_Z (Z.max 0 (50 - 10 * k))
  /\ (m <= k)%Z
  /\ calculateDictionaryScore toLowerCase this password
     <= Claimed.dictionaryScore toLowerCase (dictionary this) password
  /\ (NoDup (matchingWords toLowerCase this password) ->
      calculateDictionaryScore toLowerCase this password
      == Claimed.dictionaryScore toLowerCase (dictionary this) password)
  /\ (m = 0%Z -> calculateDictionaryScore toLowerCase this password == 50)
  /\ ((5 <= m)%Z -> calculateDictionaryScore toLowerCase this password == 0).
Proof.
  cbv zeta. rewrite distinctMatches_matchingWords.
  unfold calculateDictionaryScore, Claimed.dictionaryScore.
  rewrite distinctMatches_matchingWords.
  set (l := matchingWords toLowerCase this password).
  pose proof (remove_dups_length_le l) as Hle.
  rewrite penalty_as_integer, penalty_as_integer'.
  split; [reflexivity |]. split; [lia |].
  split; [rewrite <- Zle_Qle; lia |].
  split; [| split].
  - intros H. now rewrite (remove_dups_NoDup_length l H).
  - intros H.
    assert (remove_dups l = []) as E
        by (destruct (remove_dups l); [reflexivity | discriminate]).
    now rewrite (remove_dups_nil_inv l E).
  - intros H. change 0 with (inject_Z 0). apply inject_Z_injective. lia.
Qed.

End ScorerFacts.

Section ScorerExamples.

Local Open Scope Q_scope.
Import CipherForge.

(** C2, on a password of five different dictionary words. *)
Lemma dictionary_score_occurrences_witness :
  calculateDictionaryScore toLowerCaseASCII Sample.fiveWords
                           (js "Alpha-bravo charlie.DELTA/echo")
  == 0.
Proof.
  destruct (dictionary_score_occurrences toLowerCaseASCII Sample.fiveWords
              (js "Alpha-bravo charlie.DELTA/echo")) as (_ & _ & _ & _ & _ & H).
  apply H. vm_compute. discriminate.
Defined.

(** C2 as worded fails: with [password] in the word list, the password
    [password password] has one distinct matching token, which would score
    40, and the code scores it 30. *)
Lemma dictionary_score_counterexample :
  calculateDictionaryScore toLowerCaseASCII Sample.scorer
                           (js "password password") == 30
  /\ Claimed.dictionaryScore toLowerCaseASCII (dictionary Sample.scorer)
                             (js "password password") == 40
  /\ ~ calculateDictionaryScore toLowerCaseASCII Sample.scorer
                                (js "password password")
       == Claimed.dictionaryScore toLowerCaseASCII (dictionary Sample.scorer)
                                  (js "password password").
Proof. repeat split; vm_compute; discriminate. Qed.

End ScorerExamples.

Section ScorerPurity.

Local Open Scope Q_scope.
Import CipherForge.

Variable toLowerCase : jsstring -> jsstring.

Lemma matchingWords_same_words (this1 this2 : instance) (password : jsstring) :
  (forall w, w ∈ dictionary this1 <-> w ∈ dictionary this2) ->
  matchingWords toLowerCase this1 password
  = matchingWords toLowerCase this2 password.
Proof.
  intros H. unfold matchingWords. apply List.filter_ext.
  intros w. unfold has. apply bool_decide_ext, H.
Qed.

Lemma bind_Return {S A B : Type} (m : M S A) (k : A -> M S B)
      (a : A) (s s' : S) :
  m s = (Return a, s') -> bind m k s = k a s'.
Proof. intros H. unfold bind. now rewrite H. Qed.

Lemma arrayReduce_pure {S A B : Type} (f : B -> A -> B) (array : list A)
      (accumulator : B) (s : S) :
  Calls.arrayReduce (fun b a => ret (f b a)) array accumulator s
  = (Return (fold_left f array accumulator), s).
Proof.
  revert accumulator. induction array as [| x rest IH]; intros accumulator.
  - reflexivity.
  - cbn [Calls.arrayReduce fold_left].
    now rewrite (bind_Return _ _ (f accumulator x) s s).
Qed.

Lemma dictionaryHas_reads (word : jsstring) (w : Calls.world) :
  Calls.dictionaryHas word w
  = (Return (has (dictionary (Calls.this w)) word), w).
Proof. reflexivity. Qed.

Lemma arrayFilter_dictionaryHas (words : list jsstring) (w : Calls.world) :
  Calls.arrayFilter (fun word => Calls.dictionaryHas word) words w
  = (Return (List.filter (fun word => has (dictionary (Calls.this w)) word)
                         words), w).
Proof.
  induction words as [| x rest IH]; [reflexivity |].
  cbn [Calls.arrayFilter List.filter].
  rewrite (bind_Return _ _ _ w w (dictionaryHas_reads x w)).
  rewrite (bind_Return _ _ _ w w IH). reflexivity.
Qed.

Lemma calculateLengthScore_call (password : jsstring) (w : Calls.world) :
  Calls.calculateLengthScore password w
  = (Return (calculateLengthScore password), w).
Proof.
  unfold Calls.calculateLengthScore, calculateLengthScore. cbv zeta.
  destruct (_ <? 8)%Z; [reflexivity |].
  destruct (20 <? _)%Z; reflexivity.
Qed.

Lemma calculateDiversityScore_call (password : jsstring) (w : Calls.world) :
  Calls.calculateDiversityScore password w
  = (Return (calculateDiversityScore password), w).
Proof.
  unfold Calls.calculateDiversityScore. cbv zeta.
  now rewrite (bind_Return _ _ _ w w (arrayReduce_pure _ _ _ w)).
Qed.

Lemma calculateSpecialCharactersScore_call (password : jsstring)
      (w : Calls.world) :
  Calls.calculateSpecialCharactersScore password w
  = (Return (calculateSpecialCharactersScore password), w).
Proof. reflexivity. Qed.

Lemma calculateDictionaryScore_call (password : jsstring) (w : Calls.world) :
  Calls.calculateDictionaryScore toLowerCase password w
  = (Return (calculateDictionaryScore toLowerCase (Calls.this w) password),
     w).
Proof.
  unfold Calls.calculateDictionaryScore. cbv zeta.
  now rewrite (bind_Return _ _ _ w w (arrayFilter_dictionaryHas _ w)).
Qed.

Lemma Test_call (password : jsstring) (w : Calls.world) :
  Calls.Test toLowerCase password w
  = (Return (Test toLowerCase (Calls.this w) password), w).
Proof.
  unfold Calls.Test.
  rewrite (bind_Return _ _ _ w w (calculateLengthScore_call password w)).
  rewrite (bind_Return _ _ _ w w (calculateDiversityScore_call password w)).
  rewrite (bind_Return _ _ _ w w
             (calculateSpecialCharactersScore_call password w)).
  rewrite (bind_Return _ _ _ w w (calculateDictionaryScore_call password w)).
  reflexivity.
Qed.

(** What [Test] leaves alone, the other methods of the file do change:
    [loadDictionary] reads a file, and writes to the console when the read
    fails; a call of the generator moves the random source. *)
Lemma other_calls_leave_marks (h : host) (w : Calls.world) :
  Calls.reads (snd (Calls.loadDictionary h w))
  = Calls.reads w ++ [dictionaryFilePath (Calls.this w)]
  /\ (forall e, readFileSync h (dictionaryFilePath (Calls.this w)) = inr e ->
       Calls.out (snd (Calls.loadDictionary h w))
       = Calls.out w ++ [js "Error reading file "
                           ++ dictionaryFilePath (Calls.this w)
                           ++ js ": " ++ message_of e])
  /\ Calls.random (snd (Calls.generator CipherCraft.nextByte w))
     = CipherCraft.after 1 (Calls.random w).
Proof.
  split; [| split].
  - unfold Calls.loadDictionary, Calls.tryCatch, bind,
      Calls.getDictionaryFilePath, Calls.readFileSync.
    destruct (readFileSync h _); reflexivity.
  - intros e He.
    unfold Calls.loadDictionary, Calls.tryCatch, bind,
      Calls.getDictionaryFilePath, Calls.readFileSync.
    rewrite He. reflexivity.
  - reflexivity.
Qed.

(** As far as the console and the result go, [loadDictionary] as a call
    is the [loadDictionary] used for the construction. *)
Lemma loadDictionary_call (h : host) (w : Calls.world) :
  let (r, out') :=
    loadDictionary h (dictionaryFilePath (Calls.this w)) (Calls.out w) in
  fst (Calls.loadDictionary h w) = r
  /\ Calls.out (snd (Calls.loadDictionary h w)) = out'
  /\ Calls.this (snd (Calls.loadDictionary h w)) = Calls.this w.
Proof.
  unfold loadDictionary, Calls.loadDictionary, Calls.tryCatch, bind,
    Calls.getDictionaryFilePath, Calls.readFileSync.
  destruct (readFileSync h _); cbn; repeat split; reflexivity.
Qed.

(** C10. A call of [Test] on a password string returns a report and
    leaves everything else as it was: it assigns no field of the scorer,
    writes no line to the console, reads no file and draws no random
    byte.  The report is the one computed from the password and the word
    list, so that a second call gives the identical report, and so does a
    call in any other state of the process in which the scorer holds the
    same words. *)
Theorem Test_deterministic (w : Calls.world) (password : jsstring) :
  let report := Test toLowerCase (Calls.this w) password in
  Calls.Test toLowerCase password w = (Return report, w)
  /\ (first <- Calls.Test toLowerCase password ;;
      second <- Calls.Test toLowerCase password ;;
      ret (first, second))%js w
     = (Return (report, report), w)
  /\ (forall w' : Calls.world,
        (forall x, x ∈ dictionary (Calls.this w)
                   <-> x ∈ dictionary (Calls.this w')) ->
        Calls.Test toLowerCase password w' = (Return report, w')).
Proof.
  cbv zeta. split; [apply Test_call |]. split.
  - rewrite (bind_Return _ _ _ w w (Test_call password w)).
    rewrite (bind_Return _ _ _ w w (Test_call password w)). reflexivity.
  - intros w' H. rewrite Test_call. do 2 f_equal.
    unfold Test, calculateDictionaryScore.
    now rewrite (matchingWords_same_words (Calls.this w) (Calls.this w')
                   password H).
Qed.

End ScorerPurity.

(** C10, on two states of a process: the scorers were built from the same
    words in another order and from another path. *)
Lemma Test_deterministic_witness :
  Calls.Test toLowerCaseASCII (js "Password admin!")
             (Calls.running Sample.scorer')
  = (Return (CipherForge.Test toLowerCaseASCII Sample.scorer
                              (js "Password admin!")),
     Calls.running Sample.scorer').
Proof.
  destruct (Test_deterministic toLowerCaseASCII (Calls.running Sample.scorer)
                               (js "Password admin!")) as (_ & _ & H).
  apply (H (Calls.running Sample.scorer')).
  intros x. unfold Sample.scorer, Sample.scorer'.
  cbn [Calls.running Calls.this CipherForge.dictionary]. set_solver.
Defined.

Section Scenarios.

Local Open Scope Q_scope.
Import CipherForge.

(** The scenarios the specification lists, on an empty word list. *)
Example Test_empty_password :
  Test toLowerCaseASCII Sample.emptyScorer (js "")
  = {| isSecure := false; totalScore := 50;
       details := {| lengthScore := 0; diversityScore := 0;
                     specialCharactersScore := 0; dictionaryScore := 50 |} |}.
Proof. vm_compute. reflexivity. Qed.

Example Test_eight_lowercase :
  let report := Test toLowerCaseASCII Sample.emptyScorer (js "abcdefgh") in
  lengthScore (details report) == 0
  /\ diversityScore (details report) = 25
  /\ specialCharactersScore (details report) = 0
  /\ dictionaryScore (details report) = 50
  /\ totalScore report == 75
  /\ isSecure report = true.
Proof. vm_compute. repeat split. Qed.

Example Test_all_classes :
  let report := Test toLowerCaseASCII Sample.emptyScorer (js "Abcdefg1!") in
  lengthScore (details report) == (1 / 12) * 50
  /\ diversityScore (details report) = 100
  /\ specialCharactersScore (details report) = 25
  /\ dictionaryScore (details report) = 50
  /\ totalScore report == 175 + 50 / 12
  /\ isSecure report = true.
Proof. vm_compute. repeat split. Qed.

End Scenarios.

(* ===================================================================== *)
(** ** Construction of the scorer                                        *)
(* ===================================================================== *)

Section Construction.

Import CipherForge.

Lemma bound_path (h : host) :
  bound h "path" = existsb (String.eqb "path") (globalNames h).
Proof. reflexivity. Qed.

Lemma bound_path_false (h : host) :
  "path"%string ∉ globalNames h -> bound h "path" = false.
Proof.
  intros H. rewrite bound_path.
  destruct (existsb (String.eqb "path") (globalNames h)) eqn:E; [| reflexivity].
  apply existsb_exists in E. destruct E as (x & Hin & Heq).
  apply String.eqb_eq in Heq. subst x. apply list_elem_of_In in Hin.
  contradiction.
Qed.

(** [loadDictionary] never throws: a failed read leaves one line on the
    console and gives the empty list. *)
Lemma loadDictionary_read_failure (h : host) (file : jsstring) (e : error)
      (out : console) :
  readFileSync h file = inr e ->
  loadDictionary h file out
  = (Return [],
     out ++ [js "Error reading file " ++ file ++ js ": " ++ message_of e]).
Proof. intros H. unfold loadDictionary. now rewrite H. Qed.

Lemma loadDictionary_returns (h : host) (file : jsstring) (out : console) :
  exists words out', loadDictionary h file out = (Return words, out').
Proof.
  unfold loadDictionary. destruct (readFileSync h file); eauto.
Qed.

(** With an empty word list every password has the full dictionary
    score. *)
Lemma empty_dictionary_score (toLowerCase : jsstring -> jsstring)
      (this : instance) (password : jsstring) :
  dictionary this = ∅ ->
  calculateDictionaryScore toLowerCase this password = 50%Q.
Proof.
  intros H. unfold calculateDictionaryScore, matchingWords, has. rewrite H.
  induction (wordsInPassword toLowerCase password) as [| w l IH];
    [reflexivity |].
  cbn [List.filter]. rewrite bool_decide_eq_false_2 by set_solver.
  exact IH.
Qed.

(** In a host that binds [path], construction goes as the constructor is
    written: a failed read gives a scorer with an empty word list. *)
Lemma constructor_read_failure (h : host) (main : jsstring) (e : error)
      (out : console) :
  bound h "path" = true ->
  mainPath h = Some main ->
  readFileSync h (pathJoin h [main; js "node_modules"; js "cipherforge";
                              js "psw.txt"]) = inr e ->
  exists this out',
    constructor h out = (Return this, out') /\ dictionary this = ∅.
Proof.
  intros Hb Hm Hr. unfold constructor. rewrite Hb, Hm. unfold bind.
  rewrite (loadDictionary_read_failure _ _ _ _ Hr). cbn.
  eexists _, _. split; [reflexivity | reflexivity].
Qed.

(** In a process whose global object has a [path], the missing file costs
    one console line and the scorer starts with no words. *)
Example constructor_with_global_path :
  exists this,
    constructor Sample.nodeWithPath [] = (Return this, [js
      "Error reading file /app/node_modules/cipherforge/psw.txt: ENOENT: no such file or directory, open '/app/node_modules/cipherforge/psw.txt'"])
    /\ dictionary this = ∅.
Proof. eexists. split; [vm_compute; reflexivity | reflexivity]. Qed.

(** C9, what the code does.  The module never declares [path], so where the
    global object has no property of that name the constructor throws a
    [ReferenceError] at its first statement, before the dictionary is
    read: no scorer is constructed, whether the file can be read or
    not. *)
Theorem constructor_path_unbound (h : host) (out : console) :
  "path"%string ∉ globalNames h ->
  constructor h out = (Throw (ReferenceError (js "path is not defined")), out).
Proof.
  intros H. unfold constructor. now rewrite (bound_path_false h H).
Qed.

(** C9, in a Node.js process whose dictionary file is missing. *)
Lemma constructor_path_unbound_witness :
  constructor Sample.node []
  = (Throw (ReferenceError (js "path is not defined")), []).
Proof.
  apply constructor_path_unbound. cbn [globalNames Sample.node].
  rewrite list_elem_of_In. cbn. intuition discriminate.
Defined.

End Construction.

(* ===================================================================== *)
(** ** The generator                                                     *)
(* ===================================================================== *)

Section BytePacking.

Import CipherCraft.
Local Open Scope Z_scope.

Lemma lor_low_byte (q b : Z) :
  0 <= b < 256 -> Z.lor (q * 256) b = q * 256 + b.
Proof.
  intros Hb.
  assert (Hland : Z.land (q * 256) b = 0).
  { apply Z.bits_inj'. intros n Hn. rewrite Z.land_spec, Z.bits_0.
    destruct (Z.lt_ge_cases n 8) as [Hlt | Hge].
    - change 256 with (2 ^ 8).
      rewrite Z.mul_pow2_bits_low by exact Hlt. reflexivity.
    - rewrite (Z.bits_above_log2 b n), Bool.andb_false_r; [reflexivity | lia |].
      destruct (Z.eq_dec b 0) as [-> | Hnz]; [cbn; lia |].
      apply Z.log2_lt_pow2; [lia |].
      apply Z.lt_le_trans with (2 ^ 8); [cbn; lia |].
      apply Z.pow_le_mono_r; lia. }
  rewrite <- Z.lxor_lor by exact Hland.
  symmetry. now apply Z.add_nocarry_lxor.
Qed.

Lemma ToInt32_small (z : Z) :
  - 2 ^ 31 <= z < 2 ^ 31 -> ToInt32 z = z.
Proof.
  intros H. unfold ToInt32.
  rewrite Z.mod_small by lia. lia.
Qed.

Lemma ToInt32_multiple (q : Z) :
  exists q', ToInt32 (q * 256) = q' * 256
             /\ - 2 ^ 31 <= q' * 256 <= 2 ^ 31 - 256
             /\ (q' * 256) mod 2 ^ 32 = (q * 256) mod 2 ^ 32.
Proof.
  unfold ToInt32.
  exists ((q + 2 ^ 23) mod 2 ^ 24 - 2 ^ 23).
  assert (E : (q * 256 + 2 ^ 31) mod 2 ^ 32
              = ((q + 2 ^ 23) mod 2 ^ 24) * 256).
  { change (2 ^ 32) with (2 ^ 24 * 256).
    replace (q * 256 + 2 ^ 31) with ((q + 2 ^ 23) * 256) by lia.
    rewrite Z.mul_mod_distr_r by lia. reflexivity. }
  rewrite E.
  pose proof (Z.mod_pos_bound (q + 2 ^ 23) (2 ^ 24) ltac:(lia)) as Hb.
  split; [lia |]. split; [lia |].
  replace (((q + 2 ^ 23) mod 2 ^ 24 - 2 ^ 23) * 256)
    with (q * 256 + (- ((q + 2 ^ 23) / 2 ^ 24)) * 2 ^ 32).
  - now rewrite Z.mod_add by lia.
  - pose proof (Z.div_mod (q + 2 ^ 23) (2 ^ 24) ltac:(lia)). lia.
Qed.

Lemma shift_or_byte (x b : Z) :
  0 <= b < 256 ->
  - 2 ^ 31 <= bitor (shl x 8) b < 2 ^ 31
  /\ (bitor (shl x 8) b) mod 2 ^ 32 = (ToInt32 x * 256 + b) mod 2 ^ 32.
Proof.
  intros Hb. unfold bitor, shl. rewrite Z.shiftl_mul_pow2 by lia.
  change (2 ^ 8) with 256.
  destruct (ToInt32_multiple (ToInt32 x)) as (q' & -> & Hr & Hm).
  rewrite (ToInt32_small (q' * 256)) by lia.
  rewrite (ToInt32_small b) by lia.
  rewrite lor_low_byte by exact Hb.
  rewrite ToInt32_small by lia.
  split; [lia |].
  rewrite <- Z.add_mod_idemp_l by lia. rewrite Hm.
  now rewrite Z.add_mod_idemp_l by lia.
Qed.

Lemma shift_or_byte_small (x b : Z) :
  0 <= x < 2 ^ 23 -> 0 <= b < 256 ->
  bitor (shl x 8) b = x * 256 + b.
Proof.
  intros Hx Hb. destruct (shift_or_byte x b Hb) as (Hr & Hm).
  rewrite (ToInt32_small x) in Hm by lia.
  rewrite <- (ToInt32_small (bitor (shl x 8) b)) by exact Hr.
  unfold ToInt32 at 1.
  rewrite <- Z.add_mod_idemp_l by lia. rewrite Hm.
  rewrite Z.add_mod_idemp_l by lia.
  rewrite Z.mod_small by lia. lia.
Qed.

(** [_bytesToNumber] packs four bytes big-endian into an unsigned 32-bit
    integer. *)
Lemma bytesToNumber_big_endian (b0 b1 b2 b3 : Z) :
  0 <= b0 < 256 -> 0 <= b1 < 256 -> 0 <= b2 < 256 -> 0 <= b3 < 256 ->
  _bytesToNumber [b0; b1; b2; b3]
  = b0 * 2 ^ 24 + b1 * 2 ^ 16 + b2 * 2 ^ 8 + b3.
Proof.
  intros H0 H1 H2 H3. unfold _bytesToNumber. cbn [fold_left].
  rewrite (shift_or_byte_small 0 b0) by lia.
  rewrite (shift_or_byte_small (0 * 256 + b0) b1) by lia.
  rewrite (shift_or_byte_small ((0 * 256 + b0) * 256 + b1) b2) by lia.
  destruct (shift_or_byte (((0 * 256 + b0) * 256 + b1) * 256 + b2) b3 H3)
    as (_ & Hm).
  unfold ushr0, ToUint32. rewrite Hm.
  rewrite ToInt32_small by lia.
  rewrite Z.mod_small by lia. lia.
Qed.

Lemma byte_range (b : Byte.byte) : 0 <= Z.of_N (Byte.to_N b) < 256.
Proof. pose proof (Byte.to_N_bounded b). lia. Qed.

(** The word [RandInt] reduces is the big-endian reading of the next four
    bytes of the source. *)
Lemma nextWord_big_endian (rnd : source) :
  nextWord rnd
  = Z.of_N (Byte.to_N (rnd 0%nat)) * 2 ^ 24
    + Z.of_N (Byte.to_N (rnd 1%nat)) * 2 ^ 16
    + Z.of_N (Byte.to_N (rnd 2%nat)) * 2 ^ 8
    + Z.of_N (Byte.to_N (rnd 3%nat)).
Proof.
  unfold nextWord. cbn [List.map].
  apply bytesToNumber_big_endian; apply byte_range.
Qed.

End BytePacking.

Section GeneratorFacts.

Import CipherCraft.

Lemma send_getRandomBytes (rev : revision) (fuel : nat) (rnd : source) :
  send rev (S fuel) "_getRandomBytes" [VNumber (Int 4)] rnd
  = (Return (VBytes (List.map (fun i => Z.of_N (Byte.to_N (rnd i)))
                              [0; 1; 2; 3]%nat)),
     after 4 rnd).
Proof. reflexivity. Qed.

Lemma send_bytesToNumber (rev : revision) (fuel : nat) (bytes : list Z)
      (rnd : source) :
  send rev (S fuel) "_bytesToNumber" [VBytes bytes] rnd
  = (Return (VNumber (Int (_bytesToNumber bytes))), rnd).
Proof. reflexivity. Qed.

Lemma RandInt_result (rev : revision) (fuel : nat) (max : number)
      (rnd : source) :
  RandInt (send rev (S fuel)) max rnd
  = (Return (remainder (Int (nextWord rnd)) max), after 4 rnd).
Proof.
  unfold RandInt, bind.
  rewrite send_getRandomBytes, send_bytesToNumber.
  unfold nextWord. reflexivity.
Qed.

Lemma send_RandInt (rev : revision) (fuel : nat) (max : number)
      (rnd : source) :
  send rev (S (S fuel)) "RandInt" [VNumber max] rnd
  = (Return (VNumber (remainder (Int (nextWord rnd)) max)), after 4 rnd).
Proof.
  change (send rev (S (S fuel)) "RandInt" [VNumber max] rnd)
    with (bind (RandInt (send rev (S fuel)) max)
               (fun r => ret (VNumber r)) rnd).
  unfold bind. now rewrite RandInt_result.
Qed.

(** The word is an unsigned 32-bit integer. *)
Lemma nextWord_range (rnd : source) : (0 <= nextWord rnd < 2 ^ 32)%Z.
Proof.
  unfold nextWord, _bytesToNumber, ushr0, ToUint32.
  apply Z.mod_pos_bound. reflexivity.
Qed.

(** [RandInt(max)] for a positive integer [max] is an integer of
    [[0, max)]. *)
Lemma remainder_range (rnd : source) (max : Z) :
  (0 < max)%Z ->
  exists r, remainder (Int (nextWord rnd)) (Int max) = Int r
            /\ (0 <= r < max)%Z.
Proof.
  intros H. exists (Z.rem (nextWord rnd) max). split.
  - unfold remainder. destruct (Z.eqb_spec max 0); [lia | reflexivity].
  - apply Z.rem_bound_pos; [apply nextWord_range | exact H].
Qed.

Lemma charAt_inside (s : jsstring) (r : Z) :
  (0 <= r < Z.of_nat (List.length s))%Z ->
  exists c, charAt s (Int r) = VString [c] /\ c ∈ s.
Proof.
  intros H. unfold charAt.
  destruct (Z.ltb_spec r 0); [lia |].
  destruct (nth_error s (Z.to_nat r)) as [c |] eqn:E.
  - exists c. split; [reflexivity |].
    apply list_elem_of_In. eapply nth_error_In, E.
  - apply nth_error_None in E. lia.
Qed.

Lemma BasicPassword_loop_members (fuel : nat) (charset : jsstring) :
  charset <> [] ->
  forall (n : nat) (password : jsstring) (rnd : source),
  exists s rnd',
    BasicPassword_loop index_js (send index_js (S (S fuel))) charset n
                       password rnd
    = (Return (password ++ s), rnd')
    /\ List.length s = n
    /\ (forall c, c ∈ s -> c ∈ charset)
    /\ (forall i, rnd' i = rnd (4 * n + i)%nat).
Proof.
  intros Hne. induction n as [| n IH]; intros password rnd.
  - exists [], rnd. cbn. rewrite app_nil_r. repeat split.
    intros c Hc. inversion Hc.
  - cbn [BasicPassword_loop]. unfold bind. rewrite send_RandInt.
    destruct (remainder_range rnd (Z.of_nat (List.length charset)))
      as (r & -> & Hr).
    { destruct charset; [congruence | cbn; lia]. }
    destruct (charAt_inside charset r Hr) as (c & -> & Hc).
    cbn [appendValue].
    destruct (IH (password ++ [c]) (after 4 rnd)) as (s & rnd' & -> & Hl & Hm & Hs).
    exists (c :: s), rnd'. repeat split.
    + now rewrite <- app_assoc.
    + cbn. now rewrite Hl.
    + intros x Hx. inversion Hx; subst; auto.
    + intros i. rewrite Hs. unfold after. f_equal. lia.
Qed.

Lemma BasicPassword_loop_empty_charset (fuel : nat) :
  forall (n : nat) (password : jsstring) (rnd : source),
  exists rnd',
    BasicPassword_loop index_js (send index_js (S (S fuel))) [] n password rnd
    = (Return (password ++ undefinedTimes n), rnd')
    /\ (forall i, rnd' i = rnd (4 * n + i)%nat).
Proof.
  induction n as [| n IH]; intros password rnd.
  - exists rnd. cbn. now rewrite app_nil_r.
  - cbn [BasicPassword_loop]. unfold bind. rewrite send_RandInt.
    change (remainder (Int (nextWord rnd))
                      (Int (Z.of_nat (List.length (@nil codeunit)))))
      with NaN.
    cbn [charAt appendValue].
    destruct (IH (password ++ js "undefined") (after 4 rnd))
      as (rnd' & -> & Hs).
    exists rnd'. split.
    + cbn [undefinedTimes]. now rewrite <- app_assoc.
    + intros i. rewrite Hs. unfold after. f_equal. lia.
Qed.

Lemma send_BasicPassword (rev : revision) (fuel : nat) (charset : jsstring)
      (length : number) (rnd : source) :
  send rev (S fuel) "BasicPassword" [VString charset; VNumber length] rnd
  = bind (BasicPassword rev (send rev fuel) charset length)
         (fun s => ret (VString s)) rnd.
Proof. reflexivity. Qed.

(** C6. From a non-negative integer [n] and an alphabet that is not empty
    when [n > 0], [BasicPassword] returns a string of exactly [n] code
    units, each of them a code unit of the alphabet, having read [4 * n]
    bytes of the random source; for [n = 0] it is the empty string. *)
Theorem BasicPassword_length_members (fuel : nat) (charset : jsstring)
        (n : Z) (rnd : source) :
  (3 <= fuel)%nat ->
  (0 <= n)%Z ->
  ((0 < n)%Z -> charset <> []) ->
  exists s rnd',
    send index_js fuel "BasicPassword" [VString charset; VNumber (Int n)] rnd
    = (Return (VString s), rnd')
    /\ Z.of_nat (List.length s) = n
    /\ (forall c, c ∈ s -> c ∈ charset)
    /\ (n = 0%Z -> s = [])
    /\ (forall i, rnd' i = rnd (4 * Z.to_nat n + i)%nat).
Proof.
  intros Hfuel Hn Hne.
  destruct fuel as [| [| [| fuel]]]; try lia.
  rewrite send_BasicPassword. unfold bind, BasicPassword.
  cbn [iterations].
  destruct (Z.eq_dec n 0%Z) as [-> | Hpos].
  - exists [], rnd. cbn. repeat split. intros c Hc. inversion Hc.
  - destruct (BasicPassword_loop_members fuel charset (Hne ltac:(lia))
                (Z.to_nat n) [] rnd) as (s & rnd' & -> & Hl & Hm & Hs).
    exists s, rnd'. cbn. repeat split; try assumption; lia.
Qed.

(** C6, for six code units over a three-letter alphabet. *)
Lemma BasicPassword_length_members_witness :
  exists s rnd',
    send index_js 3 "BasicPassword" [VString (js "abc"); VNumber (Int 6)]
         Sample.bytes
    = (Return (VString s), rnd')
    /\ Z.of_nat (List.length s) = 6%Z
    /\ (forall c, c ∈ s -> c ∈ js "abc")
    /\ (6%Z = 0%Z -> s = [])
    /\ (forall i, rnd' i = Sample.bytes (4 * Z.to_nat 6 + i)%nat).
Proof.
  apply BasicPassword_length_members.
  - lia.
  - lia.
  - intros _. discriminate.
Defined.

(** C7, as the code has it.  [BasicPassword] validates nothing and
    raises no error, whatever the alphabet and the integer length: a
    length of zero or less gives the empty string without reading the
    random source, and an empty alphabet with a length [n > 0] gives the
    text [undefined] written [n] times. *)
Theorem BasicPassword_never_throws (fuel : nat) (charset : jsstring)
        (n : Z) (rnd : source) :
  (3 <= fuel)%nat ->
  (exists s rnd',
      send index_js fuel "BasicPassword" [VString charset; VNumber (Int n)] rnd
      = (Return (VString s), rnd'))
  /\ ((n <= 0)%Z ->
      send index_js fuel "BasicPassword" [VString charset; VNumber (Int n)] rnd
      = (Return (VString []), rnd))
  /\ ((0 < n)%Z -> charset = [] ->
      exists rnd',
        send index_js fuel "BasicPassword" [VString charset; VNumber (Int n)]
             rnd
        = (Return (VString (undefinedTimes (Z.to_nat n))), rnd')).
Proof.
  intros Hfuel.
  assert (Hlow : (n <= 0)%Z ->
                 send index_js fuel "BasicPassword"
                      [VString charset; VNumber (Int n)] rnd
                 = (Return (VString []), rnd)).
  { intros Hn. destruct fuel as [| fuel]; [lia |].
    rewrite send_BasicPassword. unfold bind, BasicPassword.
    cbn [iterations]. replace (Z.to_nat n) with 0%nat by lia. reflexivity. }
  assert (Hempty : (0 < n)%Z -> charset = [] ->
                   exists rnd',
                     send index_js fuel "BasicPassword"
                          [VString charset; VNumber (Int n)] rnd
                     = (Return (VString (undefinedTimes (Z.to_nat n))), rnd')).
  { intros Hn ->. destruct fuel as [| [| [| fuel]]]; try lia.
    rewrite send_BasicPassword. unfold bind, BasicPassword.
    cbn [iterations].
    destruct (BasicPassword_loop_empty_charset fuel (Z.to_nat n) [] rnd)
      as (rnd' & -> & _).
    exists rnd'. reflexivity. }
  split; [| split; assumption].
  destruct (Z.le_gt_cases n 0) as [Hn | Hn].
  - rewrite (Hlow Hn). eauto.
  - destruct charset as [| c charset].
    + destruct (Hempty ltac:(lia) eq_refl) as (rnd' & ->). eauto.
    + destruct fuel as [| [| [| fuel]]]; try lia.
      rewrite send_BasicPassword. unfold bind, BasicPassword.
      destruct (BasicPassword_loop_members fuel (c :: charset)
                  ltac:(discriminate) (iterations (Int n)) [] rnd)
        as (s & rnd' & -> & _).
      eauto.
Qed.

(** C7, at an empty alphabet and length 2. *)
Lemma BasicPassword_never_throws_witness :
  exists rnd',
    send index_js 3 "BasicPassword" [VString []; VNumber (Int 2)] Sample.bytes
    = (Return (VString (js "undefinedundefined")), rnd').
Proof.
  destruct (BasicPassword_never_throws 3 [] 2 Sample.bytes) as (_ & _ & H);
    [lia |].
  apply H; [lia | reflexivity].
Defined.

(** C7 as worded fails: with an empty alphabet and length 5 the call
    returns a string, and with a negative length it returns the empty
    string; neither raises an error. *)
Lemma BasicPassword_counterexample :
  fst (send index_js 3 "BasicPassword" [VString (js ""); VNumber (Int 5)]
            Sample.bytes)
  = Return (VString (js "undefinedundefinedundefinedundefinedundefined"))
  /\ fst (send index_js 3 "BasicPassword"
               [VString (js "ab"); VNumber (Int (-1))] Sample.bytes)
     = Return (VString []).
Proof. split; vm_compute; reflexivity. Qed.

(** The revision whose [BasicPassword] asks [this.getRandomInt] for the
    index: the class has no such method, so every call with a positive
    length throws. *)
Lemma BasicPassword_part_001_throws (fuel : nat) (charset : jsstring) (n : Z)
      (rnd : source) :
  (0 < n)%Z ->
  send part_001 (S fuel) "BasicPassword" [VString charset; VNumber (Int n)] rnd
  = (Throw (notAFunction "getRandomInt"), rnd).
Proof.
  intros Hn. rewrite send_BasicPassword. unfold bind, BasicPassword.
  cbn [iterations]. destruct (Z.to_nat n) as [| k] eqn:E; [lia |].
  cbn [BasicPassword_loop]. unfold bind.
  destruct fuel; reflexivity.
Qed.

Lemma send_generatePassword (rev : revision) (fuel : nat)
      (args : list value) (rnd : source) :
  send rev fuel "generatePassword" args rnd
  = (Throw (notAFunction "generatePassword"), rnd).
Proof. destruct fuel; reflexivity. Qed.

(** C8. The class declares no [generatePassword], and neither does
    anything an instance inherits.  So [CustomPassword], for every options
    object and for none, and [Key], for every length and for none, end in
    a [TypeError] and never return a string; the random source is left
    untouched. *)
Theorem CustomPassword_and_Key_throw (rev : revision) (fuel : nat)
        (rnd : source) :
  getProperty "generatePassword" = Absent
  /\ (forall arg : option options,
         CustomPassword (send rev fuel) arg rnd
         = (Throw (notAFunction "generatePassword"), rnd))
  /\ (forall arg : option number,
         Key (send rev fuel) arg rnd
         = (Throw (notAFunction "generatePassword"), rnd))
  /\ (forall o : options,
         send rev (S fuel) "CustomPassword" [VOptions o] rnd
         = (Throw (notAFunction "generatePassword"), rnd))
  /\ send rev (S fuel) "CustomPassword" [] rnd
     = (Throw (notAFunction "generatePassword"), rnd)
  /\ (forall length : number,
         send rev (S fuel) "Key" [VNumber length] rnd
         = (Throw (notAFunction "generatePassword"), rnd))
  /\ send rev (S fuel) "Key" [] rnd
     = (Throw (notAFunction "generatePassword"), rnd)
  /\ (forall (name : string) (args : list value) (v : value) (rnd' : source),
         name = "CustomPassword"%string \/ name = "Key"%string ->
         send rev fuel name args rnd <> (Return v, rnd')).
Proof.
  assert (HC : forall arg : option options,
             CustomPassword (send rev fuel) arg rnd
             = (Throw (notAFunction "generatePassword"), rnd)).
  { intros arg. unfold CustomPassword. apply send_generatePassword. }
  assert (HK : forall arg : option number,
             Key (send rev fuel) arg rnd
             = (Throw (notAFunction "generatePassword"), rnd)).
  { intros arg. unfold Key. apply send_generatePassword. }
  split; [reflexivity |]. split; [exact HC |]. split; [exact HK |].
  split; [intros o; exact (HC (Some o)) |].
  split; [exact (HC None) |].
  split; [intros l; exact (HK (Some l)) |].
  split; [exact (HK None) |].
  intros name args v rnd' Hname.
  destruct fuel as [| fuel]; [destruct Hname as [-> | ->]; discriminate |].
  destruct Hname as [-> | ->].
  - change (send rev (S fuel) "CustomPassword" args rnd)
      with (body rev (send rev fuel) CustomPassword_m args rnd).
    destruct args as [| [| | | |] args]; cbn [body];
      try discriminate;
      unfold CustomPassword; rewrite send_generatePassword; discriminate.
  - change (send rev (S fuel) "Key" args rnd)
      with (body rev (send rev fuel) Key_m args rnd).
    destruct args as [| [| | | |] args]; cbn [body];
      try discriminate;
      unfold Key; rewrite send_generatePassword; discriminate.
Qed.

(** C8, on a request for sixteen characters. *)
Lemma CustomPassword_and_Key_throw_witness :
  send index_js 5 "CustomPassword"
       [VOptions {| length := Some (Int 16); useLowercase := Some true;
                    useUppercase := Some true; useNumbers := Some true;
                    useSymbols := Some true; customCharset := None |}]
       Sample.bytes
  <> (Return (VString (js "aB3$aB3$aB3$aB3$")), Sample.bytes).
Proof.
  destruct (CustomPassword_and_Key_throw index_js 5 Sample.bytes)
    as (_ & _ & _ & _ & _ & _ & _ & H).
  apply H. now left.
Defined.

End GeneratorFacts.

(* ===================================================================== *)
(** ** Rounding: the rational model against double precision             *)
(* ===================================================================== *)

Section Rounding.

Local Open Scope Q_scope.
Import CipherForge.

Lemma calculateLengthScore_exact (password : jsstring) :
  calculateLengthScore password
  = Binary64.exactLengthScore (Z.of_nat (List.length password)).
Proof. reflexivity. Qed.

Lemma representative_listed (len : Z) :
  In (Binary64.representative len) Binary64.lengths.
Proof.
  unfold Binary64.representative.
  destruct (Z.ltb_spec len 8); [cbn; tauto |].
  destruct (Z.ltb_spec 20 len); [cbn; tauto |].
  assert (H' : (len = 8 \/ len = 9 \/ len = 10 \/ len = 11 \/ len = 12
                \/ len = 13 \/ len = 14 \/ len = 15 \/ len = 16 \/ len = 17
                \/ len = 18 \/ len = 19 \/ len = 20)%Z) by lia.
  cbn. intuition auto.
Qed.

Lemma representative_scores (len : Z) :
  Binary64.calculateLengthScore (Binary64.representative len)
  = Binary64.calculateLengthScore len
  /\ Binary64.exactLengthScore (Binary64.representative len)
     = Binary64.exactLengthScore len.
Proof.
  unfold Binary64.representative, Binary64.calculateLengthScore,
    Binary64.exactLengthScore.
  destruct (Z.ltb_spec len 8); [split; reflexivity |].
  destruct (Z.ltb_spec 20 len); [split; reflexivity |].
  destruct (Z.ltb_spec len 8); [lia |].
  destruct (Z.ltb_spec 20 len); [lia |]. split; reflexivity.
Qed.

(** The double computed for the length score is within [2^-47] of the
    rational one, for every password. *)
Lemma length_score_rounding (password : jsstring) :
  Qabs (Binary64.toQ (Binary64.calculateLengthScore
                        (Z.of_nat (List.length password)))
        - calculateLengthScore password)
  <= 1 # 2 ^ 47.
Proof.
  rewrite calculateLengthScore_exact.
  set (len := Z.of_nat (List.length password)).
  destruct (representative_scores len) as (<- & <-).
  apply Qle_bool_iff.
  change (Binary64.closeLengthScore (Binary64.representative len) = true).
  assert (H : forallb Binary64.closeLengthScore Binary64.lengths = true)
    by (vm_compute; reflexivity).
  rewrite forallb_forall in H. apply H, representative_listed.
Qed.

(** In double precision the comparison with 75 decides as in the rational
    model, for every length and all values of the integer sub-scores. *)
Lemma verdict_rounding (len diversity special dictionary : Z) :
  In diversity Binary64.diversityValues ->
  In special Binary64.specialValues ->
  In dictionary Binary64.dictionaryValues ->
  Binary64.isSecure len diversity special dictionary
  = Qle_bool 75 (Binary64.exactLengthScore len + inject_Z diversity
                 + inject_Z special + inject_Z dictionary).
Proof.
  intros Hd Hs Hk.
  assert (H : forallb (fun n =>
              forallb (fun d =>
              forallb (fun s =>
              forallb (fun k => Binary64.sameVerdict n d s k)
                      Binary64.dictionaryValues)
                      Binary64.specialValues)
                      Binary64.diversityValues)
                      Binary64.lengths = true)
    by (vm_compute; reflexivity).
  rewrite forallb_forall in H.
  specialize (H _ (representative_listed len)).
  rewrite forallb_forall in H. specialize (H _ Hd).
  rewrite forallb_forall in H. specialize (H _ Hs).
  rewrite forallb_forall in H. specialize (H _ Hk).
  unfold Binary64.sameVerdict, Binary64.isSecure, Binary64.totalScore in H.
  destruct (representative_scores len) as (E1 & E2).
  rewrite E1, E2 in H. apply Bool.eqb_prop in H. exact H.
Qed.

Lemma diversity_score_value (password : jsstring) :
  exists d, In d Binary64.diversityValues
            /\ calculateDiversityScore password == inject_Z d.
Proof.
  unfold calculateDiversityScore, characterSets. cbn [fold_left].
  destruct (RegExp.test RegExp.lowercase password),
    (RegExp.test RegExp.uppercase password),
    (RegExp.test RegExp.digit password),
    (RegExp.test RegExp.nonWord password);
    first [ exists 0%Z; split; [cbn; tauto | reflexivity]
          | exists 25%Z; split; [cbn; tauto | reflexivity]
          | exists 50%Z; split; [cbn; tauto | reflexivity]
          | exists 75%Z; split; [cbn; tauto | reflexivity]
          | exists 100%Z; split; [cbn; tauto | reflexivity] ].
Qed.

Lemma special_score_value (password : jsstring) :
  exists s, In s Binary64.specialValues
            /\ calculateSpecialCharactersScore password == inject_Z s.
Proof.
  rewrite special_score_test.
  destruct (RegExp.test specialCharacter password);
    [exists 25%Z | exists 0%Z]; (split; [cbn; tauto | reflexivity]).
Qed.

Lemma dictionary_score_value (toLowerCase : jsstring -> jsstring)
      (this : instance) (password : jsstring) :
  exists k, In k Binary64.dictionaryValues
            /\ calculateDictionaryScore toLowerCase this password
               == inject_Z k.
Proof.
  unfold calculateDictionaryScore.
  set (n := Z.of_nat (List.length (matchingWords toLowerCase this password))).
  exists (Z.max 0 (50 - 10 * n)). split; [| apply penalty_as_integer].
  assert (Hn : (0 <= n)%Z) by (unfold n; lia).
  assert (H : (n = 0 \/ n = 1 \/ n = 2 \/ n = 3 \/ n = 4 \/ 5 <= n)%Z) by lia.
  destruct H as [-> | [-> | [-> | [-> | [-> | H]]]]]; cbn; try tauto.
  rewrite Z.max_l by lia. tauto.
Qed.

(** The verdict of [Test] is the one the engine reaches in double
    precision from the same length and the same integer sub-scores. *)
Lemma Test_verdict_binary64 (toLowerCase : jsstring -> jsstring)
      (this : instance) (password : jsstring) :
  exists d s k,
    calculateDiversityScore password == inject_Z d
    /\ calculateSpecialCharactersScore password == inject_Z s
    /\ calculateDictionaryScore toLowerCase this password == inject_Z k
    /\ isSecure (Test toLowerCase this password)
       = Binary64.isSecure (Z.of_nat (List.length password)) d s k.
Proof.
  destruct (diversity_score_value password) as (d & Hd & Ed).
  destruct (special_score_value password) as (s & Hs & Es).
  destruct (dictionary_score_value toLowerCase this password)
    as (k & Hk & Ek).
  exists d, s, k. repeat split; try assumption.
  rewrite (verdict_rounding _ d s k Hd Hs Hk).
  unfold Test. cbn [isSecure]. rewrite calculateLengthScore_exact.
  apply Qleb_comp; [reflexivity |]. now rewrite Ed, Es, Ek.
Qed.

End Rounding.

(* ===================================================================== *)
(** ** More on the generator: bytes, random integers, passwords          *)
(* ===================================================================== *)

Section RandomBytes.

Import CipherCraft.
Local Open Scope Z_scope.

Lemma ToInt32_mod (z : Z) : ToInt32 z mod 2 ^ 32 = z mod 2 ^ 32.
Proof.
  unfold ToInt32.
  replace ((z + 2 ^ 31) mod 2 ^ 32 - 2 ^ 31)
    with (z + (- ((z + 2 ^ 31) / 2 ^ 32)) * 2 ^ 32).
  - now rewrite Z.mod_add by lia.
  - pose proof (Z.div_mod (z + 2 ^ 31) (2 ^ 32) ltac:(lia)). lia.
Qed.

Lemma shift_byte_congruent (x y b : Z) :
  x mod 2 ^ 32 = y mod 2 ^ 32 ->
  (x * 256 + b) mod 2 ^ 32 = (y * 256 + b) mod 2 ^ 32.
Proof.
  intros H.
  rewrite <- (Z.add_mod_idemp_l (x * 256)), <- (Z.add_mod_idemp_l (y * 256))
    by lia.
  rewrite <- (Z.mul_mod_idemp_l x), <- (Z.mul_mod_idemp_l y) by lia.
  now rewrite H.
Qed.

Lemma fold_bytes_congruent (bytes : list Z) :
  Forall Bytes.isByte bytes ->
  forall a a' : Z,
    a mod 2 ^ 32 = a' mod 2 ^ 32 ->
    (fold_left (fun result b => bitor (shl result 8) b) bytes a) mod 2 ^ 32
    = (fold_left (fun acc b => acc * 256 + b) bytes a') mod 2 ^ 32.
Proof.
  induction 1 as [| b bytes Hb _ IH]; intros a a' Ha; cbn [fold_left].
  - exact Ha.
  - apply IH. destruct (shift_or_byte a b Hb) as (_ & ->).
    apply shift_byte_congruent. now rewrite ToInt32_mod.
Qed.

Lemma bigEndian_app (pre bytes : list Z) :
  Bytes.bigEndian (pre ++ bytes)
  = Bytes.bigEndian pre * 256 ^ Z.of_nat (List.length bytes)
    + Bytes.bigEndian bytes.
Proof.
  unfold Bytes.bigEndian. rewrite fold_left_app.
  generalize (fold_left (fun acc b => acc * 256 + b) pre 0). intros a.
  revert a. induction bytes as [| b bytes IH]; intros a.
  - cbn. lia.
  - cbn [fold_left List.length]. rewrite IH, (IH (0 * 256 + b)).
    rewrite Nat2Z.inj_succ, Z.pow_succ_r by lia. lia.
Qed.

Lemma bytesToNumber_modulo_gen (bytes : list Z) :
  Forall Bytes.isByte bytes ->
  _bytesToNumber bytes = Bytes.bigEndian bytes mod 2 ^ 32
  /\ (forall pre last4 : list Z,
         bytes = pre ++ last4 -> List.length last4 = 4%nat ->
         _bytesToNumber bytes = Bytes.bigEndian last4).
Proof.
  intros Hb.
  assert (E : _bytesToNumber bytes = Bytes.bigEndian bytes mod 2 ^ 32).
  { unfold _bytesToNumber, ushr0, ToUint32, Bytes.bigEndian.
    now apply fold_bytes_congruent. }
  split; [exact E |].
  intros pre last4 -> Hlen. rewrite E, bigEndian_app, Hlen.
  change (256 ^ Z.of_nat 4) with (2 ^ 32).
  rewrite Z.add_comm, Z.mod_add by lia.
  apply Forall_app in Hb. destruct Hb as (_ & Hl).
  destruct last4 as [| b0 [| b1 [| b2 [| b3 [| ? ?]]]]]; try discriminate.
  apply Z.mod_small.
  inversion Hl as [| ? ? H0 Hl1]; subst.
  inversion Hl1 as [| ? ? H1 Hl2]; subst.
  inversion Hl2 as [| ? ? H2 Hl3]; subst.
  inversion Hl3 as [| ? ? H3 _]; subst.
  unfold Bytes.isByte in *. unfold Bytes.bigEndian. cbn [fold_left]. lia.
Qed.

(** [_bytesToNumber] reads any array of bytes as the big-endian number
    it spells, reduced modulo [2^32]; so the result is an unsigned 32-bit
    integer and only the last four bytes of a longer array count. *)
Theorem bytesToNumber_modulo (bytes : list Z) :
  Forall Bytes.isByte bytes ->
  _bytesToNumber bytes = Bytes.bigEndian bytes mod 2 ^ 32
  /\ 0 <= _bytesToNumber bytes < 2 ^ 32
  /\ (forall pre last4 : list Z,
         bytes = pre ++ last4 -> List.length last4 = 4%nat ->
         _bytesToNumber bytes = Bytes.bigEndian last4).
Proof.
  intros Hb. destruct (bytesToNumber_modulo_gen bytes Hb) as (E & H4).
  split; [exact E |]. split; [| exact H4].
  rewrite E. apply Z.mod_pos_bound. lia.
Qed.

(** Five bytes: the first is shifted out. *)
Lemma bytesToNumber_modulo_witness :
  _bytesToNumber [171; 1; 2; 3; 4] = 16909060.
Proof.
  assert (H : Forall Bytes.isByte [171; 1; 2; 3; 4])
    by (repeat constructor; unfold Bytes.isByte; lia).
  destruct (bytesToNumber_modulo _ H) as (_ & _ & H4).
  rewrite (H4 [171] [1; 2; 3; 4] eq_refl eq_refl). reflexivity.
Defined.

Lemma drawn_succ (rnd : source) (k : nat) :
  Bytes.drawn rnd (S k)
  = Z.of_N (Byte.to_N (rnd 0%nat)) :: Bytes.drawn (fun i => rnd (S i)) k.
Proof.
  unfold Bytes.drawn. cbn [seq List.map]. f_equal.
  rewrite <- seq_shift, List.map_map. reflexivity.
Qed.

Lemma drawn_bytes (rnd : source) (k : nat) :
  Forall Bytes.isByte (Bytes.drawn rnd k).
Proof.
  unfold Bytes.drawn. apply Forall_forall. intros b Hb.
  apply list_elem_of_In, in_map_iff in Hb. destruct Hb as (i & <- & _). apply byte_range.
Qed.

Lemma getRandomBytes_draw_spec (k : nat) (rnd : source) :
  getRandomBytes_draw k rnd = (Return (Bytes.drawn rnd k), after k rnd).
Proof.
  revert rnd. induction k as [| k IH]; intros rnd; [reflexivity |].
  cbn [getRandomBytes_draw]. unfold bind at 1. cbn [nextByte].
  unfold bind. rewrite IH, drawn_succ. reflexivity.
Qed.

(** [_getRandomBytes(n)] for an integer [n] below [2^32] returns the next
    [n] bytes of the random source, in order, each an integer of
    [[0, 255]], and moves the source past exactly those; for [n <= 0] and
    for [NaN] it returns the empty array and reads nothing; for [n] of
    [2^32] or more it throws a [RangeError] and reads nothing. *)
Theorem getRandomBytes_reads (length : number) (rnd : source) :
  let k := iterations length in
  (forall n, length = Int n -> n < 2 ^ 32 ->
             _getRandomBytes length rnd
             = (Return (Bytes.drawn rnd k), after k rnd))
  /\ List.length (Bytes.drawn rnd k) = k
  /\ Forall Bytes.isByte (Bytes.drawn rnd k)
  /\ (forall i, (i < k)%nat ->
                nth_error (Bytes.drawn rnd k) i
                = Some (Z.of_N (Byte.to_N (rnd i))))
  /\ (forall n, length = Int n -> n <= 0 ->
                _getRandomBytes length rnd = (Return [], rnd))
  /\ (length = NaN -> _getRandomBytes length rnd = (Return [], rnd))
  /\ (forall n, length = Int n -> 2 ^ 32 <= n ->
                _getRandomBytes length rnd
                = (Throw (RangeError (js "Invalid array length")), rnd)).
Proof.
  cbv zeta. unfold _getRandomBytes.
  split; [| split; [| split; [| split; [| split; [| split]]]]].
  - intros n -> Hn. cbn [invalidArrayLength].
    destruct (Z.leb_spec (2 ^ 32) n); [lia |].
    apply getRandomBytes_draw_spec.
  - unfold Bytes.drawn. now rewrite length_map, length_seq.
  - apply drawn_bytes.
  - intros i Hi. unfold Bytes.drawn.
    rewrite nth_error_map, nth_error_seq.
    destruct (Nat.ltb_spec i (iterations length)); [reflexivity | lia].
  - intros n -> Hn. cbn [invalidArrayLength iterations].
    destruct (Z.leb_spec (2 ^ 32) n); [lia |].
    replace (Z.to_nat n) with 0%nat by lia. reflexivity.
  - intros ->. reflexivity.
  - intros n -> Hn. cbn [invalidArrayLength].
    destruct (Z.leb_spec (2 ^ 32) n); [reflexivity | lia].
Qed.

(** Two bytes from the sample source, and a length of [2^32]. *)
Lemma getRandomBytes_reads_witness :
  _getRandomBytes (Int 2) Sample.bytes
  = (Return (Bytes.drawn Sample.bytes 2), after 2 Sample.bytes)
  /\ nth_error (Bytes.drawn Sample.bytes 2) 1
     = Some (Z.of_N (Byte.to_N (Sample.bytes 1%nat)))
  /\ _getRandomBytes (Int 4294967296) Sample.bytes
     = (Throw (RangeError (js "Invalid array length")), Sample.bytes).
Proof.
  destruct (getRandomBytes_reads (Int 2) Sample.bytes)
    as (H1 & _ & _ & H2 & _).
  destruct (getRandomBytes_reads (Int 4294967296) Sample.bytes)
    as (_ & _ & _ & _ & _ & _ & H3).
  split; [apply (H1 2); [reflexivity | reflexivity] |].
  split; [apply H2; cbn; lia |].
  apply (H3 4294967296); [reflexivity | discriminate].
Defined.

End RandomBytes.

Section RandomIntegers.

Import CipherCraft.
Local Open Scope Z_scope.

Lemma nextWord_drawn (rnd : source) :
  nextWord rnd = Bytes.bigEndian (Bytes.drawn rnd 4).
Proof.
  pose proof (nextWord_range rnd) as Hr.
  assert (E : nextWord rnd = _bytesToNumber (Bytes.drawn rnd 4))
    by reflexivity.
  rewrite E in *.
  destruct (bytesToNumber_modulo_gen (Bytes.drawn rnd 4) (drawn_bytes rnd 4))
    as (_ & H4).
  apply (H4 [] (Bytes.drawn rnd 4)); reflexivity.
Qed.

Lemma nextWord_ext (rnd rnd' : source) :
  (forall i, rnd i = rnd' i) -> nextWord rnd = nextWord rnd'.
Proof.
  intros H. unfold nextWord. cbn [List.map]. now rewrite !H.
Qed.

Lemma remainder_positive (w m : Z) :
  0 <= w -> 0 < m ->
  remainder (Int w) (Int m) = Int (w mod m) /\ 0 <= w mod m < m.
Proof.
  intros Hw Hm. split.
  - unfold remainder. destruct (Z.eqb_spec m 0); [lia |].
    now rewrite Z.rem_mod_nonneg by lia.
  - apply Z.mod_pos_bound, Hm.
Qed.

Lemma remainder_negative (w m : Z) :
  0 <= w -> m < 0 ->
  remainder (Int w) (Int m) = Int (w mod (- m)) /\ 0 <= w mod (- m) < - m.
Proof.
  intros Hw Hm. split.
  - unfold remainder. destruct (Z.eqb_spec m 0); [lia |].
    rewrite <- (Z.opp_involutive m) at 1.
    rewrite Z.rem_opp_r by lia. now rewrite Z.rem_mod_nonneg by lia.
  - apply Z.mod_pos_bound. lia.
Qed.

(** [RandInt(max)] reads four bytes, takes them as a big-endian word [w]
    below [2^32] and returns [w % max]: an integer of [[0, max)] for a
    positive [max], an integer of [[0, -max)] (never a negative one) for a
    negative [max], and [NaN] for [max = 0] and for [NaN]. *)
Theorem RandInt_value (rev : revision) (fuel : nat) (max : number)
        (rnd : source) :
  (2 <= fuel)%nat ->
  let w := Bytes.bigEndian (Bytes.drawn rnd 4) in
  send rev fuel "RandInt" [VNumber max] rnd
  = (Return (VNumber (remainder (Int w) max)), after 4 rnd)
  /\ 0 <= w < 2 ^ 32
  /\ (forall m, max = Int m -> 0 < m ->
                remainder (Int w) max = Int (w mod m) /\ 0 <= w mod m < m)
  /\ (forall m, max = Int m -> m < 0 ->
                remainder (Int w) max = Int (w mod (- m))
                /\ 0 <= w mod (- m) < - m)
  /\ (max = Int 0 -> remainder (Int w) max = NaN)
  /\ (max = NaN -> remainder (Int w) max = NaN).
Proof.
  intros Hfuel. cbv zeta. rewrite <- nextWord_drawn.
  pose proof (nextWord_range rnd) as Hw.
  destruct fuel as [| [| fuel]]; try lia.
  split; [apply send_RandInt |]. split; [exact Hw |].
  split; [| split; [| split]].
  - intros m -> Hm. apply remainder_positive; lia.
  - intros m -> Hm. apply remainder_negative; lia.
  - intros ->. reflexivity.
  - intros ->. reflexivity.
Qed.

(** The sample source starts with the word [ff018007]; modulo 1000 that is
    391. *)
Lemma RandInt_value_witness :
  send index_js 2 "RandInt" [VNumber (Int 1000)] Sample.bytes
  = (Return (VNumber (Int 391)), after 4 Sample.bytes).
Proof.
  destruct (RandInt_value index_js 2 (Int 1000) Sample.bytes ltac:(lia))
    as (E & _ & H & _).
  rewrite E. destruct (H 1000 eq_refl ltac:(lia)) as (-> & _).
  reflexivity.
Defined.

End RandomIntegers.

Section GeneratedPasswords.

Import CipherCraft.

Lemma charAt_nth (s : jsstring) (r : Z) :
  (0 <= r < Z.of_nat (List.length s))%Z ->
  exists c, charAt s (Int r) = VString [c]
            /\ nth_error s (Z.to_nat r) = Some c.
Proof.
  intros H. unfold charAt.
  destruct (Z.ltb_spec r 0); [lia |].
  destruct (nth_error s (Z.to_nat r)) as [c |] eqn:E; [eauto |].
  apply nth_error_None in E. lia.
Qed.

Lemma pick_shift (charset : jsstring) (rnd : source) (i : nat) :
  Bytes.pick charset (after 4 rnd) i = Bytes.pick charset rnd (S i).
Proof.
  unfold Bytes.pick. rewrite <- !nextWord_drawn. do 3 f_equal.
  apply nextWord_ext. intros j. unfold after. f_equal. lia.
Qed.

Lemma BasicPassword_loop_picks (fuel : nat) (charset : jsstring) :
  charset <> [] ->
  forall (n : nat) (password : jsstring) (rnd : source),
  exists s rnd',
    BasicPassword_loop index_js (send index_js (S (S fuel))) charset n
                       password rnd
    = (Return (password ++ s), rnd')
    /\ List.length s = n
    /\ (forall i, (i < n)%nat -> nth_error s i = Bytes.pick charset rnd i)
    /\ (forall i, rnd' i = rnd (4 * n + i)%nat).
Proof.
  intros Hne. induction n as [| n IH]; intros password rnd.
  - exists [], rnd. cbn. rewrite app_nil_r. repeat split. intros i Hi. lia.
  - cbn [BasicPassword_loop]. unfold bind. rewrite send_RandInt.
    assert (Hlen : (0 < Z.of_nat (List.length charset))%Z)
      by (destruct charset; [congruence | cbn; lia]).
    destruct (remainder_positive (nextWord rnd) _
                ltac:(apply nextWord_range) Hlen) as (-> & Hr).
    destruct (charAt_nth charset _ Hr) as (c & -> & Hc).
    cbn [appendValue].
    destruct (IH (password ++ [c]) (after 4 rnd))
      as (s & rnd' & -> & Hl & Hp & Hs).
    exists (c :: s), rnd'. repeat split.
    + now rewrite <- app_assoc.
    + cbn. now rewrite Hl.
    + intros [| i] Hi.
      * cbn [nth_error]. rewrite <- Hc. unfold Bytes.pick.
        rewrite <- nextWord_drawn.
        rewrite (nextWord_ext (after (4 * 0) rnd) rnd); [reflexivity |].
        intros j. reflexivity.
      * cbn [nth_error]. rewrite Hp by lia. apply pick_shift.
    + intros i. rewrite Hs. unfold after. f_equal. lia.
Qed.

Lemma BasicPassword_picks (fuel : nat) (charset : jsstring) (n : Z)
      (rnd : source) :
  (3 <= fuel)%nat -> charset <> [] ->
  exists s rnd',
    send index_js fuel "BasicPassword" [VString charset; VNumber (Int n)] rnd
    = (Return (VString s), rnd')
    /\ List.length s = Z.to_nat n
    /\ (forall i, (i < Z.to_nat n)%nat ->
                  nth_error s i = Bytes.pick charset rnd i)
    /\ (forall i, rnd' i = rnd (4 * Z.to_nat n + i)%nat).
Proof.
  intros Hfuel Hne. destruct fuel as [| [| [| fuel]]]; try lia.
  rewrite send_BasicPassword. unfold bind, BasicPassword. cbn [iterations].
  destruct (BasicPassword_loop_picks fuel charset Hne (Z.to_nat n) [] rnd)
    as (s & rnd' & -> & Hl & Hp & Hs).
  exists s, rnd'. cbn. auto.
Qed.

Lemma pick_same_bytes (charset : jsstring) (rnd1 rnd2 : source) (n i : nat) :
  (forall j, (j < 4 * n)%nat -> rnd1 j = rnd2 j) ->
  (i < n)%nat ->
  Bytes.pick charset rnd1 i = Bytes.pick charset rnd2 i.
Proof.
  intros H Hi. unfold Bytes.pick. do 4 f_equal.
  unfold Bytes.drawn. cbn [seq List.map]. unfold after.
  rewrite !H by lia. reflexivity.
Qed.

(** The [i]-th character of [BasicPassword(charset, n)] is the character
    of the alphabet at index [w_i mod charset.length], where [w_i] is the
    big-endian word made of bytes [4i .. 4i+3] of the random source; the
    call reads exactly [4 * n] bytes. *)
Theorem BasicPassword_characters (fuel : nat) (charset : jsstring) (n : Z)
        (rnd : source) :
  (3 <= fuel)%nat -> charset <> [] ->
  exists s rnd',
    send index_js fuel "BasicPassword" [VString charset; VNumber (Int n)] rnd
    = (Return (VString s), rnd')
    /\ List.length s = Z.to_nat n
    /\ (forall i, (i < Z.to_nat n)%nat ->
                  nth_error s i = Bytes.pick charset rnd i)
    /\ (forall i, rnd' i = rnd (4 * Z.to_nat n + i)%nat).
Proof. apply BasicPassword_picks. Qed.

(** Two characters over [abc] from the sample source: words [ff018007]
    and [07070707], both 1 modulo 3. *)
Lemma BasicPassword_characters_witness :
  exists rnd',
    send index_js 3 "BasicPassword" [VString (js "abc"); VNumber (Int 2)]
         Sample.bytes
    = (Return (VString (js "bb")), rnd').
Proof.
  destruct (BasicPassword_characters 3 (js "abc") 2 Sample.bytes
              ltac:(lia) ltac:(discriminate))
    as (s & rnd' & E & Hl & Hp & _).
  exists rnd'. rewrite E.
  destruct s as [| c0 [| c1 [| ? ?]]]; try discriminate.
  pose proof (Hp 0%nat ltac:(cbn; lia)) as H0.
  pose proof (Hp 1%nat ltac:(cbn; lia)) as H1.
  vm_compute in H0, H1.
  injection H0 as ->. injection H1 as ->. reflexivity.
Defined.

(** The password is a function of the bytes read: two random sources
    that agree on their first [4 * n] bytes give the same password. *)
Theorem BasicPassword_same_bytes (fuel : nat) (charset : jsstring) (n : Z)
        (rnd1 rnd2 : source) :
  (3 <= fuel)%nat -> charset <> [] ->
  (forall j, (j < 4 * Z.to_nat n)%nat -> rnd1 j = rnd2 j) ->
  fst (send index_js fuel "BasicPassword"
            [VString charset; VNumber (Int n)] rnd1)
  = fst (send index_js fuel "BasicPassword"
              [VString charset; VNumber (Int n)] rnd2).
Proof.
  intros Hfuel Hne Hsame.
  destruct (BasicPassword_picks fuel charset n rnd1 Hfuel Hne)
    as (s1 & r1 & -> & Hl1 & Hp1 & _).
  destruct (BasicPassword_picks fuel charset n rnd2 Hfuel Hne)
    as (s2 & r2 & -> & Hl2 & Hp2 & _).
  cbn [fst]. do 2 f_equal. apply nth_error_ext. intros i.
  destruct (Nat.lt_ge_cases i (Z.to_nat n)) as [Hi | Hi].
  - rewrite Hp1, Hp2 by exact Hi.
    now apply (pick_same_bytes charset rnd1 rnd2 (Z.to_nat n)).
  - rewrite (proj2 (nth_error_None s1 i)), (proj2 (nth_error_None s2 i));
      [reflexivity | lia | lia].
Qed.

(** The sample source and one that differs from it after byte 8. *)
Lemma BasicPassword_same_bytes_witness :
  fst (send index_js 3 "BasicPassword" [VString (js "abc"); VNumber (Int 2)]
            Sample.bytes)
  = fst (send index_js 3 "BasicPassword"
              [VString (js "abc"); VNumber (Int 2)]
              (fun i => if (i <? 8)%nat then Sample.bytes i else Byte.x00)).
Proof.
  apply BasicPassword_same_bytes.
  - lia.
  - discriminate.
  - intros j Hj. destruct (Nat.ltb_spec j 8); [reflexivity |].
    cbn in Hj. lia.
Defined.

(** In the revision whose [BasicPassword] calls [this.getRandomInt], the
    call throws a [TypeError] exactly when the length is positive, whatever
    the alphabet; otherwise it returns the empty string.  The random source
    is never read. *)
Theorem BasicPassword_part_001 (fuel : nat) (charset : jsstring) (n : Z)
        (rnd : source) :
  send part_001 (S fuel) "BasicPassword" [VString charset; VNumber (Int n)]
       rnd
  = if (0 <? n)%Z then (Throw (notAFunction "getRandomInt"), rnd)
    else (Return (VString []), rnd).
Proof.
  rewrite send_BasicPassword. unfold bind, BasicPassword. cbn [iterations].
  destruct (Z.ltb_spec 0 n) as [Hn | Hn].
  - destruct (Z.to_nat n) as [| k] eqn:E; [lia |].
    cbn [BasicPassword_loop]. unfold bind. destruct fuel; reflexivity.
  - replace (Z.to_nat n) with 0%nat by lia. reflexivity.
Qed.

End GeneratedPasswords.

(* ===================================================================== *)
(** ** More on the scorer: ranges, verdicts and the word list            *)
(* ===================================================================== *)

Section ScoreRanges.

Local Open Scope Q_scope.
Import CipherForge.

Variable toLowerCase : jsstring -> jsstring.

(** The length score in one expression: [25 * (n - 8) / 6], kept between
    0 and 50. *)
Lemma length_score_clamped (password : jsstring) :
  calculateLengthScore password
  == inject_Z (Z.min 300 (Z.max 0
                 (25 * (Z.of_nat (List.length password) - 8)))) / 6.
Proof.
  unfold calculateLengthScore. cbv zeta.
  set (n := Z.of_nat (List.length password)).
  destruct (Z.ltb_spec n 8).
  - rewrite Z.max_l, Z.min_r by lia. reflexivity.
  - destruct (Z.ltb_spec 20 n).
    + rewrite Z.max_r, Z.min_l by lia. reflexivity.
    + rewrite Z.max_r, Z.min_r by lia. rewrite inject_Z_mult.
      change (inject_Z (20 - 8)) with 12. change (inject_Z 25) with 25.
      field.
Qed.

Lemma sixth_le (a b : Z) : (a <= b)%Z -> inject_Z a / 6 <= inject_Z b / 6.
Proof.
  intros H. unfold Qdiv. apply Qmult_le_compat_r; [| discriminate].
  now rewrite <- Zle_Qle.
Qed.

Lemma length_score_bounds (password : jsstring) :
  0 <= calculateLengthScore password <= 50.
Proof.
  rewrite length_score_clamped. split.
  - apply Qle_trans with (inject_Z 0 / 6); [discriminate |].
    apply sixth_le. lia.
  - apply Qle_trans with (inject_Z 300 / 6); [| discriminate].
    apply sixth_le. lia.
Qed.

(** A longer password never has a lower length score. *)
Theorem length_score_monotone (p q : jsstring) :
  (List.length p <= List.length q)%nat ->
  calculateLengthScore p <= calculateLengthScore q.
Proof.
  intros H. rewrite !length_score_clamped. apply sixth_le. lia.
Qed.

(** Nine code units against twelve. *)
Lemma length_score_monotone_witness :
  calculateLengthScore (js "Abcdefg1!") <= calculateLengthScore (js "Abcdefg1!xyz").
Proof. apply length_score_monotone. cbn. lia. Defined.

Lemma dictionary_score_bounds (this : instance) (password : jsstring) :
  0 <= calculateDictionaryScore toLowerCase this password <= 50.
Proof.
  unfold calculateDictionaryScore.
  set (n := Z.of_nat (List.length (matchingWords toLowerCase this password))).
  assert (Hn : (0 <= n)%Z) by (unfold n; lia).
  rewrite penalty_as_integer. split.
  - change 0 with (inject_Z 0). rewrite <- Zle_Qle. lia.
  - change 50 with (inject_Z 50). rewrite <- Zle_Qle. lia.
Qed.

(** A password that is not empty shows one of the four classes or holds
    an underscore, which is a special character. *)
Lemma some_class_present (password : jsstring) :
  password <> [] ->
  RegExp.test RegExp.lowercase password = true
  \/ RegExp.test RegExp.uppercase password = true
  \/ RegExp.test RegExp.digit password = true
  \/ RegExp.test RegExp.nonWord password = true
  \/ RegExp.test specialCharacter password = true.
Proof.
  destruct password as [| c p]; [congruence |]. intros _.
  unfold RegExp.test. cbn [existsb].
  unfold RegExp.nonWord, RegExp.word.
  destruct (RegExp.lowercase c); [now left |].
  destruct (RegExp.uppercase c); [now (right; left) |].
  destruct (RegExp.digit c); [now (right; right; left) |].
  destruct (N.eqb_spec c 95) as [-> | Hc].
  - right; right; right; right. reflexivity.
  - right; right; right; left. reflexivity.
Qed.

(** The total lies between 0 and 225: at most 50 for length, 100 for
    diversity, 25 for special characters and 50 for the dictionary. *)
Theorem total_score_range (this : instance) (password : jsstring) :
  let report := Test toLowerCase this password in
  0 <= totalScore report <= 225
  /\ 0 <= lengthScore (details report) <= 50
  /\ 0 <= diversityScore (details report) <= 100
  /\ 0 <= specialCharactersScore (details report) <= 25
  /\ 0 <= dictionaryScore (details report) <= 50.
Proof.
  cbv zeta. unfold Test.
  cbn [totalScore details lengthScore diversityScore specialCharactersScore
       dictionaryScore].
  pose proof (length_score_bounds password) as HL.
  pose proof (dictionary_score_bounds this password) as HD.
  assert (HV : 0 <= calculateDiversityScore password <= 100).
  { destruct (diversity_score_value password) as (d & Hd & ->).
    cbn in Hd.
    repeat (destruct Hd as [<- | Hd]; [split; discriminate |]).
    contradiction. }
  assert (HS : 0 <= calculateSpecialCharactersScore password <= 25).
  { destruct (special_score_value password) as (x & Hx & ->).
    cbn in Hx.
    repeat (destruct Hx as [<- | Hx]; [split; discriminate |]).
    contradiction. }
  repeat split; try tauto; lra.
Qed.

(** Every password that is not empty and has no token in the word list is
    rated secure, however short it is. *)
Theorem unlisted_password_secure (this : instance) (password : jsstring) :
  password <> [] ->
  matchingWords toLowerCase this password = [] ->
  isSecure (Test toLowerCase this password) = true.
Proof.
  intros Hne Hm. unfold Test. cbn [isSecure]. apply Qle_bool_iff.
  assert (HD : calculateDictionaryScore toLowerCase this password = 50)
    by (unfold calculateDictionaryScore; rewrite Hm; reflexivity).
  rewrite HD. pose proof (length_score_bounds password) as HL.
  pose proof (some_class_present password Hne) as Hc.
  rewrite special_score_test.
  unfold calculateDiversityScore, characterSets. cbn [fold_left].
  destruct (RegExp.test RegExp.lowercase password),
    (RegExp.test RegExp.uppercase password),
    (RegExp.test RegExp.digit password),
    (RegExp.test RegExp.nonWord password),
    (RegExp.test specialCharacter password);
    try lra; intuition discriminate.
Qed.

(** The empty password is never rated secure. *)
Lemma empty_password_insecure (this : instance) :
  isSecure (Test toLowerCase this []) = false.
Proof.
  unfold Test. cbn [isSecure].
  destruct (Qle_bool 75 _) eqn:E; [| reflexivity].
  apply Qle_bool_iff in E.
  pose proof (dictionary_score_bounds this []) as HD.
  change (calculateLengthScore []) with 0 in E.
  change (calculateDiversityScore []) with (0 + 0 + 0 + 0 + 0) in E.
  change (calculateSpecialCharactersScore []) with 0 in E.
  lra.
Qed.

End ScoreRanges.

(** One letter, no word of the list: secure. *)
Lemma unlisted_password_secure_witness :
  CipherForge.isSecure (CipherForge.Test toLowerCaseASCII Sample.scorer (js "a"))
  = true.
Proof.
  apply unlisted_password_secure; [discriminate | vm_compute; reflexivity].
Defined.

(** The bound 225 is reached. *)
Example total_score_maximum :
  (CipherForge.totalScore
     (CipherForge.Test toLowerCaseASCII Sample.scorer
                       (js "Correct-Horse-Battery-9"))
   == 225)%Q.
Proof. vm_compute. reflexivity. Qed.

Section Tokens.

Local Open Scope Q_scope.
Import CipherForge.

(** Text without separators is one piece. *)
Lemma splitRuns_no_separator (sep : codeunit -> bool) (s : jsstring) :
  Forall (fun c => sep c = false) s ->
  forall (inSep : bool) (cur : jsstring),
    RegExp.splitRuns sep inSep cur s = [rev cur ++ s].
Proof.
  induction 1 as [| c s Hc _ IH]; intros inSep cur; cbn [RegExp.splitRuns].
  - now rewrite app_nil_r.
  - rewrite Hc, IH. cbn [rev]. now rewrite <- app_assoc.
Qed.

(** No piece holds a separator. *)
Lemma splitRuns_pieces (sep : codeunit -> bool) (s : jsstring) :
  forall (inSep : bool) (cur w : jsstring),
    Forall (fun c => sep c = false) cur ->
    In w (RegExp.splitRuns sep inSep cur s) ->
    Forall (fun c => sep c = false) w.
Proof.
  induction s as [| c s IH]; intros inSep cur w Hcur Hw;
    cbn [RegExp.splitRuns] in Hw.
  - destruct Hw as [<- | []]. now apply Forall_rev.
  - destruct (sep c) eqn:Hc.
    + destruct inSep.
      * eapply IH; [| exact Hw]. constructor.
      * destruct Hw as [<- | Hw]; [now apply Forall_rev |].
        eapply IH; [| exact Hw]. constructor.
    + eapply IH; [| exact Hw]. now constructor.
Qed.

Variable toLowerCase : jsstring -> jsstring.

Lemma token_word_characters (password w : jsstring) :
  In w (wordsInPassword toLowerCase password) ->
  Forall (fun c => RegExp.nonWord c = false) w.
Proof.
  apply splitRuns_pieces. constructor.
Qed.

Lemma single_token (password : jsstring) :
  Forall (fun c => RegExp.word c = true) (toLowerCase password) ->
  wordsInPassword toLowerCase password = [toLowerCase password].
Proof.
  intros H. unfold wordsInPassword, RegExp.split.
  rewrite splitRuns_no_separator; [reflexivity |].
  eapply Forall_impl; [exact H |].
  intros c Hc. unfold RegExp.nonWord. now rewrite Hc.
Qed.

(** A password written with letters, digits and underscores only is one
    token: its dictionary score is 40 when the whole folded password is an
    entry of the word list and 50 otherwise, whatever words it contains as
    parts. *)
Theorem single_token_dictionary_score (this : instance)
        (password : jsstring) :
  Forall (fun c => RegExp.word c = true) (toLowerCase password) ->
  calculateDictionaryScore toLowerCase this password
  = if bool_decide (toLowerCase password ∈ dictionary this) then 40 else 50.
Proof.
  intros H. unfold calculateDictionaryScore, matchingWords.
  rewrite (single_token password H). cbn [List.filter]. unfold has.
  destruct (bool_decide _); reflexivity.
Qed.

Lemma inert_entry (this : instance) (entry password : jsstring) :
  ~ In entry (wordsInPassword toLowerCase password) ->
  matchingWords toLowerCase (WordList.addEntry entry this) password
  = matchingWords toLowerCase this password.
Proof.
  intros Hnot. unfold matchingWords. apply List.filter_ext_in.
  intros w Hw. unfold has, WordList.addEntry. cbn [dictionary].
  apply bool_decide_ext. rewrite elem_of_union, elem_of_singleton.
  split; [| tauto]. intros [-> | H]; [contradiction | exact H].
Qed.

Lemma same_matches_same_report (this1 this2 : instance)
      (password : jsstring) :
  matchingWords toLowerCase this1 password
  = matchingWords toLowerCase this2 password ->
  Test toLowerCase this1 password = Test toLowerCase this2 password.
Proof.
  intros H. unfold Test, calculateDictionaryScore. now rewrite H.
Qed.

(** An entry of the word list that holds a character other than a letter,
    a digit or an underscore (a space, a hyphen, an apostrophe, a trailing
    blank) changes no report: no token can equal it. *)
Theorem nonword_entry_inert (this : instance) (entry password : jsstring) :
  (exists c, In c entry /\ RegExp.nonWord c = true) ->
  Test toLowerCase (WordList.addEntry entry this) password
  = Test toLowerCase this password.
Proof.
  intros (c & Hc & Hn). apply same_matches_same_report, inert_entry.
  intros Hin. apply token_word_characters in Hin.
  rewrite List.Forall_forall in Hin. specialize (Hin c Hc). congruence.
Qed.

(** The tokens come from the folded password, and the entries are kept as
    read: where folding leaves no capital letter [A]-[Z], an entry that
    has one changes no report. *)
Theorem uppercase_entry_inert (this : instance) (entry password : jsstring) :
  (forall s, Forall (fun c => RegExp.uppercase c = false) (toLowerCase s)) ->
  (exists c, In c entry /\ RegExp.uppercase c = true) ->
  Test toLowerCase (WordList.addEntry entry this) password
  = Test toLowerCase this password.
Proof.
  intros Hfold (c & Hc & Hu).
  apply same_matches_same_report, inert_entry. intros Hin.
  assert (Hall : forall w inSep cur,
             Forall (fun c => RegExp.uppercase c = false) cur ->
             In w (RegExp.splitRuns RegExp.nonWord inSep cur
                                    (toLowerCase password)) ->
             Forall (fun c => RegExp.uppercase c = false) w).
  { specialize (Hfold password).
    induction Hfold as [| x s Hx _ IH]; intros w inSep cur Hcur Hw;
      cbn [RegExp.splitRuns] in Hw.
    - destruct Hw as [<- | []]. now apply Forall_rev.
    - destruct (RegExp.nonWord x).
      + destruct inSep.
        * eapply IH; [| exact Hw]. constructor.
        * destruct Hw as [<- | Hw]; [now apply Forall_rev |].
          eapply IH; [| exact Hw]. constructor.
      + eapply IH; [| exact Hw]. now constructor. }
  specialize (Hall entry false [] ltac:(constructor) Hin).
  rewrite List.Forall_forall in Hall. specialize (Hall c Hc). congruence.
Qed.

End Tokens.

Lemma toLowerCaseASCII_no_capital (s : jsstring) :
  Forall (fun c => RegExp.uppercase c = false) (toLowerCaseASCII s).
Proof.
  unfold toLowerCaseASCII. apply Forall_map, Forall_true. intros c. cbn.
  destruct (RegExp.uppercase c) eqn:E; [| exact E].
  unfold RegExp.uppercase, RegExp.inRange in *.
  apply andb_prop in E. destruct E as (E1 & E2).
  apply N.leb_le in E1, E2. apply Bool.andb_false_iff. right.
  apply N.leb_gt. lia.
Qed.

(** The word [password] inside a longer run of letters and digits goes
    unnoticed. *)
Lemma single_token_dictionary_score_witness :
  CipherForge.calculateDictionaryScore toLowerCaseASCII Sample.scorer
                                       (js "password123")
  = 50%Q.
Proof.
  rewrite single_token_dictionary_score.
  - vm_compute. reflexivity.
  - vm_compute. repeat constructor.
Defined.

(** The line [pass word], kept with its blank, matches nothing. *)
Lemma nonword_entry_inert_witness :
  CipherForge.Test toLowerCaseASCII
                   (WordList.addEntry (js "pass word") Sample.scorer)
                   (js "pass word")
  = CipherForge.Test toLowerCaseASCII Sample.scorer (js "pass word").
Proof.
  apply nonword_entry_inert. exists 32%N. split; [cbn; tauto | reflexivity].
Defined.

(** The line [Hunter], kept with its capital, matches nothing. *)
Lemma uppercase_entry_inert_witness :
  CipherForge.Test toLowerCaseASCII
                   (WordList.addEntry (js "Hunter") Sample.scorer)
                   (js "Hunter hunter")
  = CipherForge.Test toLowerCaseASCII Sample.scorer (js "Hunter hunter").
Proof.
  apply uppercase_entry_inert.
  - apply toLowerCaseASCII_no_capital.
  - exists 72%N. split; [cbn; tauto | reflexivity].
Defined.

(* ===================================================================== *)
(** ** Reading the dictionary file                                       *)
(* ===================================================================== *)

Section DictionaryFile.

Import CipherForge.

Lemma splitLinesFrom_cons (cur : jsstring) (c : codeunit) (s : jsstring) :
  RegExp.splitLinesFrom cur (c :: s)
  = if (c =? 10)%N then rev cur :: RegExp.splitLinesFrom [] s
    else if ((c =? 13)%N && JSArray.startsWithLF s)%bool
         then rev cur :: RegExp.splitLinesFrom [] (tl s)
         else RegExp.splitLinesFrom (c :: cur) s.
Proof.
  destruct c as [| p]; [reflexivity |].
  do 4 (try destruct p as [p | p |]); try reflexivity.
  destruct s as [| d s]; [reflexivity |].
  destruct d as [| q]; [reflexivity |].
  do 4 (try destruct q as [q | q |]); reflexivity.
Qed.

Lemma splitLinesFrom_line (w : jsstring) :
  JSArray.isLine w ->
  forall cur rest : jsstring,
    RegExp.splitLinesFrom cur (w ++ rest)
    = RegExp.splitLinesFrom (rev w ++ cur) rest.
Proof.
  induction w as [| c w IH]; intros (H10 & H13) cur rest; [reflexivity |].
  cbn [app]. rewrite splitLinesFrom_cons.
  destruct (N.eqb_spec c 10) as [-> | _]; [exfalso; apply H10; now left |].
  destruct (N.eqb_spec c 13) as [-> | _]; [exfalso; apply H13; now left |].
  cbn [andb]. rewrite IH.
  - cbn [rev]. now rewrite <- app_assoc.
  - split; intros Hin; [apply H10 | apply H13]; now right.
Qed.

Lemma splitLinesFrom_end (w cur : jsstring) :
  JSArray.isLine w ->
  RegExp.splitLinesFrom cur w = [rev cur ++ w].
Proof.
  intros Hw. rewrite <- (app_nil_r w) at 1.
  rewrite (splitLinesFrom_line w Hw). cbn [RegExp.splitLinesFrom].
  now rewrite rev_app_distr, rev_involutive.
Qed.

Lemma splitLinesFrom_separator (sep w cur rest : jsstring) :
  sep = [10%N] \/ sep = [13%N; 10%N] ->
  JSArray.isLine w ->
  RegExp.splitLinesFrom cur (w ++ sep ++ rest)
  = (rev cur ++ w) :: RegExp.splitLinesFrom [] rest.
Proof.
  intros Hsep Hw. rewrite (splitLinesFrom_line w Hw).
  destruct Hsep as [-> | ->]; cbn [app]; rewrite splitLinesFrom_cons;
    cbn; now rewrite rev_app_distr, rev_involutive.
Qed.

Lemma splitLines_join (sep : jsstring) (lines : list jsstring) :
  sep = [10%N] \/ sep = [13%N; 10%N] ->
  Forall JSArray.isLine lines ->
  lines <> [] ->
  RegExp.splitLines (JSArray.join sep lines) = lines.
Proof.
  intros Hsep Hall Hne. unfold RegExp.splitLines.
  induction Hall as [| w lines Hw Hall IH]; [congruence |].
  destruct lines as [| w' lines].
  - cbn [JSArray.join]. now rewrite splitLinesFrom_end.
  - change (JSArray.join sep (w :: w' :: lines))
      with (w ++ sep ++ JSArray.join sep (w' :: lines)).
    rewrite (splitLinesFrom_separator sep w [] _ Hsep Hw).
    cbn [rev app]. f_equal. apply IH. discriminate.
Qed.

(** Of a file whose lines are joined by line feeds, or by carriage return
    and line feed, [loadDictionary] returns the lines that are not blank,
    in order and as written (neither trimmed nor folded), and writes
    nothing to the console.  Blank lines, a final line terminator and an
    empty file add no entry. *)
Theorem loadDictionary_lines (h : host) (file sep : jsstring)
        (lines : list jsstring) (out : console) :
  sep = [10%N] \/ sep = [13%N; 10%N] ->
  Forall JSArray.isLine lines ->
  readFileSync h file = inl (JSArray.join sep lines) ->
  loadDictionary h file out
  = (Return (List.filter RegExp.trimNonEmpty lines), out).
Proof.
  intros Hsep Hall Hread. unfold loadDictionary. rewrite Hread.
  destruct lines as [| w lines]; [reflexivity |].
  rewrite (splitLines_join sep (w :: lines) Hsep Hall); [reflexivity |].
  discriminate.
Qed.

End DictionaryFile.

(** A file of four lines, one blank and one with a blank kept, ended by a
    line terminator. *)
Lemma loadDictionary_lines_witness :
  CipherForge.loadDictionary
    {| CipherForge.readFileSync := fun _ =>
         inl (js "password" ++ [13; 10]%N ++ js " Admin " ++ [13; 10]%N
                ++ js "  " ++ [13; 10]%N ++ js "qwerty" ++ [13; 10]%N);
       CipherForge.mainPath := None;
       CipherForge.globalNames := [];
       CipherForge.pathJoin := fun _ => [] |}
    (js "psw.txt") []
  = (Return [js "password"; js " Admin "; js "qwerty"], []).
Proof.
  apply (loadDictionary_lines _ _ [13; 10]%N
           [js "password"; js " Admin "; js "  "; js "qwerty"; []]).
  - now right.
  - repeat constructor; cbn; intuition discriminate.
  - vm_compute. reflexivity.
Defined.

(* ===================================================================== *)
(** ** The generator's alphabets under the scorer                        *)
(* ===================================================================== *)

Section AlphabetsScored.

Local Open Scope Q_scope.
Import CipherForge.

Lemma test_member (class : codeunit -> bool) (password : jsstring)
      (c : codeunit) :
  In c password -> class c = true -> RegExp.test class password = true.
Proof.
  intros Hc Hcls. unfold RegExp.test. apply existsb_exists. eauto.
Qed.

Lemma alphabet_classes (c : codeunit) :
  (In c (CipherCraft.lowercase CipherCraft.charsets) ->
   RegExp.lowercase c = true)
  /\ (In c (CipherCraft.uppercase CipherCraft.charsets) ->
      RegExp.uppercase c = true)
  /\ (In c (CipherCraft.numeric CipherCraft.charsets) ->
      RegExp.digit c = true)
  /\ (In c (CipherCraft.symbols CipherCraft.charsets) ->
      specialCharacter c = true /\ (c = 95%N \/ RegExp.nonWord c = true)).
Proof.
  split; [| split; [| split]]; intros H; vm_compute in H;
    repeat (destruct H as [<- | H];
            [first [reflexivity
                   | split; [reflexivity | first [now left | now right]]] |]);
    contradiction.
Qed.

(** A password that holds a character of each of the generator's four
    alphabets gets the special-characters score 25; its diversity score is
    100 unless its only symbols are underscores, which the scorer counts
    as word characters. *)
Theorem generated_alphabets_scored (password : jsstring)
        (l u d s : codeunit) :
  In l password -> In l (CipherCraft.lowercase CipherCraft.charsets) ->
  In u password -> In u (CipherCraft.uppercase CipherCraft.charsets) ->
  In d password -> In d (CipherCraft.numeric CipherCraft.charsets) ->
  In s password -> In s (CipherCraft.symbols CipherCraft.charsets) ->
  calculateSpecialCharactersScore password = 25
  /\ (s <> 95%N -> calculateDiversityScore password = 100)
  /\ 75 <= calculateDiversityScore password.
Proof.
  intros Hl Hl' Hu Hu' Hd Hd' Hs Hs'.
  destruct (alphabet_classes l) as (Al & _).
  destruct (alphabet_classes u) as (_ & Au & _).
  destruct (alphabet_classes d) as (_ & _ & Ad & _).
  destruct (alphabet_classes s) as (_ & _ & _ & As).
  destruct (As Hs') as (Hsp & Hnw).
  rewrite special_score_test, (test_member _ _ s Hs Hsp).
  unfold calculateDiversityScore, characterSets. cbn [fold_left].
  rewrite (test_member _ _ l Hl (Al Hl')), (test_member _ _ u Hu (Au Hu')),
    (test_member _ _ d Hd (Ad Hd')).
  split; [reflexivity |]. split.
  - intros Hne. destruct Hnw as [-> | Hnw]; [congruence |].
    now rewrite (test_member _ _ s Hs Hnw).
  - destruct (RegExp.test RegExp.nonWord password); discriminate.
Qed.

(** One character of each alphabet. *)
Lemma generated_alphabets_scored_witness :
  calculateSpecialCharactersScore (js "aB3$") = 25
  /\ (36%N <> 95%N -> calculateDiversityScore (js "aB3$") = 100)
  /\ 75 <= calculateDiversityScore (js "aB3$").
Proof.
  apply (generated_alphabets_scored (js "aB3$") 97%N 66%N 51%N 36%N);
    vm_compute; tauto.
Defined.

End AlphabetsScored.

(* ===================================================================== *)
(** ** The length scores of index.js                                     *)
(* ===================================================================== *)

Section OtherLengthScores.

Local Open Scope Q_scope.

Lemma IndexJs_length_points (password : jsstring) :
  IndexJs._calculateLengthScore password
  == inject_Z (IndexJs.lengthPoints (Z.of_nat (List.length password))) / 22.
Proof.
  unfold IndexJs._calculateLengthScore, IndexJs.lengthPoints. cbv zeta.
  set (n := Z.of_nat (List.length password)).
  destruct (Z.ltb_spec n 8); [reflexivity |].
  destruct (Z.ltb_spec 30 n); [reflexivity |].
  rewrite inject_Z_plus, inject_Z_mult.
  change (inject_Z (30 - 8)) with 22. change (inject_Z 550) with 550.
  change (inject_Z 50) with 50. field.
Qed.


Lemma over_le (k : positive) (a b : Z) :
  (a <= b)%Z -> inject_Z a / (Z.pos k # 1) <= inject_Z b / (Z.pos k # 1).
Proof.
  intros H. unfold Qdiv. apply Qmult_le_compat_r; [| discriminate].
  now rewrite <- Zle_Qle.
Qed.

Lemma over_lt (k : positive) (a b : Z) :
  (a < b)%Z -> inject_Z a / (Z.pos k # 1) < inject_Z b / (Z.pos k # 1).
Proof.
  intros H. unfold Qdiv. apply Qmult_lt_compat_r; [reflexivity |].
  now rewrite <- Zlt_Qlt.
Qed.

Lemma over_eq (k : positive) (a b : Z) :
  inject_Z a / (Z.pos k # 1) == inject_Z b / (Z.pos k # 1) <-> a = b.
Proof.
  split; [| now intros ->].
  intros H. destruct (Z.lt_trichotomy a b) as [Hlt | [Heq | Hgt]]; trivial.
  - apply (over_lt k) in Hlt. rewrite H in Hlt.
    now apply Qlt_irrefl in Hlt.
  - apply (over_lt k) in Hgt. rewrite H in Hgt.
    now apply Qlt_irrefl in Hgt.
Qed.

(** In the first text of index.js the length score of a password of [n]
    code units is 0 exactly when [n < 8], 100 exactly when [n > 30], and
    [25 + 25 * (n - 8) / 11] from 8 to 30: it jumps from 0 to 25 at eight
    code units and from 75 to 100 after thirty, it is 0, or between 25 and
    75, or 100, and a longer password never has a lower score. *)
Theorem IndexJs_length_score_steps (p q : jsstring) :
  let n := Z.of_nat (List.length p) in
  ((List.length p <= List.length q)%nat ->
   IndexJs._calculateLengthScore p <= IndexJs._calculateLengthScore q)
  /\ (IndexJs._calculateLengthScore p == 0 <-> (n < 8)%Z)
  /\ (IndexJs._calculateLengthScore p == 100 <-> (30 < n)%Z)
  /\ ((8 <= n <= 30)%Z ->
      IndexJs._calculateLengthScore p == 25 + inject_Z (n - 8) * (25 # 11))
  /\ (n = 7%Z -> IndexJs._calculateLengthScore p == 0)
  /\ (n = 8%Z -> IndexJs._calculateLengthScore p == 25)
  /\ (n = 30%Z -> IndexJs._calculateLengthScore p == 75)
  /\ (n = 31%Z -> IndexJs._calculateLengthScore p == 100)
  /\ (IndexJs._calculateLengthScore p == 0
      \/ 25 <= IndexJs._calculateLengthScore p <= 75
      \/ IndexJs._calculateLengthScore p == 100).
Proof.
  cbv zeta. rewrite !IndexJs_length_points.
  set (n := Z.of_nat (List.length p)).
  split; [| split; [| split; [| split; [| split; [| split; [| split;
    [| split]]]]]]].
  - intros H. apply (over_le 22). unfold IndexJs.lengthPoints. subst n.
    destruct (Z.ltb_spec (Z.of_nat (List.length p)) 8),
      (Z.ltb_spec 30 (Z.of_nat (List.length p))),
      (Z.ltb_spec (Z.of_nat (List.length q)) 8),
      (Z.ltb_spec 30 (Z.of_nat (List.length q))); lia.
  - assert (E : 0 == inject_Z 0 / 22) by reflexivity.
    rewrite E, (over_eq 22).
    unfold IndexJs.lengthPoints.
    destruct (Z.ltb_spec n 8), (Z.ltb_spec 30 n); lia.
  - assert (E : 100 == inject_Z 2200 / 22) by reflexivity.
    rewrite E, (over_eq 22). unfold IndexJs.lengthPoints.
    destruct (Z.ltb_spec n 8), (Z.ltb_spec 30 n); lia.
  - intros Hn. unfold IndexJs.lengthPoints.
    destruct (Z.ltb_spec n 8); [lia |].
    destruct (Z.ltb_spec 30 n); [lia |].
    rewrite inject_Z_plus, inject_Z_mult.
    change (inject_Z 550) with 550. change (inject_Z 50) with 50. field.
  - intros ->. reflexivity.
  - intros ->. reflexivity.
  - intros ->. reflexivity.
  - intros ->. reflexivity.
  - unfold IndexJs.lengthPoints.
    destruct (Z.ltb_spec n 8); [now left |].
    destruct (Z.ltb_spec 30 n); [right; right; reflexivity |].
    right; left. split.
    + apply Qle_trans with (inject_Z 550 / 22); [discriminate |].
      apply (over_le 22). lia.
    + apply Qle_trans with (inject_Z 1650 / 22); [| discriminate].
      apply (over_le 22). lia.
Qed.

(** Seven code units against eight, and thirty against thirty-one. *)
Lemma IndexJs_length_score_steps_witness :
  IndexJs._calculateLengthScore (js "abcdefg")
  <= IndexJs._calculateLengthScore (js "abcdefgh")
  /\ IndexJs._calculateLengthScore (js "abcdefg") == 0
  /\ IndexJs._calculateLengthScore (js "abcdefgh") == 25
  /\ IndexJs._calculateLengthScore (js "abcdefghijklmnopqrstuvwxyz0123") == 75
  /\ IndexJs._calculateLengthScore (js "abcdefghijklmnopqrstuvwxyz01234")
     == 100.
Proof.
  destruct (IndexJs_length_score_steps (js "abcdefg") (js "abcdefgh"))
    as (H1 & H2 & _).
  destruct (IndexJs_length_score_steps (js "abcdefgh") [])
    as (_ & _ & _ & H3 & _).
  destruct (IndexJs_length_score_steps
              (js "abcdefghijklmnopqrstuvwxyz0123") [])
    as (_ & _ & _ & _ & _ & _ & H4 & _).
  destruct (IndexJs_length_score_steps
              (js "abcdefghijklmnopqrstuvwxyz01234") [])
    as (_ & _ & H5 & _).
  split; [apply H1; cbn; lia |].
  split; [apply H2; cbn; lia |].
  split; [rewrite H3; [reflexivity | cbn; lia] |].
  split; [apply H4; reflexivity |].
  apply H5. cbn. lia.
Defined.



End OtherLengthScores.

(* ===================================================================== *)
(** ** The diversity scores of index.js                                  *)
(* ===================================================================== *)

Section OtherDiversityScores.

Local Open Scope Q_scope.

(** Three code units in a row that satisfy [P]. *)
Lemma window_spec (P : codeunit -> codeunit -> codeunit -> bool)
      (f : jsstring -> bool) :
  (forall s, f s = match s with
                   | a :: ((b :: c :: _) as s') => P a b c || f s'
                   | _ => false
                   end) ->
  forall s, f s = true
            <-> exists pre a b c post,
                  s = pre ++ a :: b :: c :: post /\ P a b c = true.
Proof.
  intros Hf s. split.
  - induction s as [| a s IH]; rewrite Hf; [discriminate |].
    destruct s as [| b [| c s]]; try discriminate.
    intros H. apply Bool.orb_true_iff in H. destruct H as [H | H].
    + exists [], a, b, c, s. auto.
    + destruct (IH H) as (pre & x & y & z & post & E & HP).
      exists (a :: pre), x, y, z, post. rewrite E. auto.
  - intros (pre & a & b & c & post & -> & HP).
    induction pre as [| x pre IH]; rewrite Hf; cbn [app].
    + now rewrite HP.
    + destruct (pre ++ a :: b :: c :: post) as [| y [| z r]] eqn:E.
      * destruct pre; discriminate.
      * destruct pre as [| ? [| ? ?]]; discriminate.
      * rewrite IH. apply Bool.orb_true_r.
Qed.

Lemma hasRepetitiveSequence_spec (s : jsstring) :
  IndexJs.hasRepetitiveSequence s = true
  <-> exists pre c post, s = pre ++ c :: c :: c :: post
                         /\ RegExp.word c = true.
Proof.
  rewrite (window_spec
             (fun a b c => RegExp.word a && (b =? a)%N && (c =? a)%N)%bool
             IndexJs.hasRepetitiveSequence);
    [| intros [| a [| b [| c r]]]; reflexivity].
  split.
  - intros (pre & a & b & c & post & -> & H).
    apply andb_prop in H. destruct H as (H & Hc).
    apply andb_prop in H. destruct H as (Hw & Hb).
    apply N.eqb_eq in Hb, Hc. subst. eauto.
  - intros (pre & c & post & -> & Hw). exists pre, c, c, c, post.
    now rewrite Hw, N.eqb_refl.
Qed.

Lemma hasConsecutiveLetterSequence_spec (s : jsstring) :
  IndexJs.hasConsecutiveLetterSequence s = true
  <-> exists pre a b c post,
        s = pre ++ a :: b :: c :: post
        /\ IndexJs.letter a = true /\ IndexJs.letter b = true
        /\ IndexJs.letter c = true.
Proof.
  rewrite (window_spec
             (fun a b c => IndexJs.letter a && IndexJs.letter b
                           && IndexJs.letter c)%bool
             IndexJs.hasConsecutiveLetterSequence);
    [| intros [| a [| b [| c r]]]; reflexivity].
  split; intros (pre & a & b & c & post & E & H);
    exists pre, a, b, c, post; (split; [exact E |]).
  - apply andb_prop in H. destruct H as (H & Hc).
    apply andb_prop in H. tauto.
  - destruct H as (-> & -> & ->). reflexivity.
Qed.

Lemma letter_run_class (s : jsstring) :
  IndexJs.hasConsecutiveLetterSequence s = true ->
  RegExp.test RegExp.lowercase s = true
  \/ RegExp.test RegExp.uppercase s = true.
Proof.
  intros H. apply hasConsecutiveLetterSequence_spec in H.
  destruct H as (pre & a & b & c & post & -> & Ha & _).
  unfold IndexJs.letter in Ha. apply Bool.orb_true_iff in Ha.
  destruct Ha as [Ha | Ha]; [left | right];
    (apply (test_member _ _ a); [| exact Ha]);
    apply in_or_app; right; now left.
Qed.

(** The diversity score of the first text of index.js is 0, 50 or 100.  A
    password in which a letter, digit or underscore stands three times in
    a row scores 50 when it has three letters in a row and 0 otherwise,
    whatever classes it shows; without such a repetition, three letters in
    a row are enough for 100. *)
Theorem IndexJs_diversity_values (password : jsstring) :
  (IndexJs._calculateDiversityScore password = 0
   \/ IndexJs._calculateDiversityScore password = 50
   \/ IndexJs._calculateDiversityScore password = 100)
  /\ ((exists pre c post, password = pre ++ c :: c :: c :: post
                          /\ RegExp.word c = true) ->
      IndexJs._calculateDiversityScore password
      = if IndexJs.hasConsecutiveLetterSequence password then 50 else 0)
  /\ (IndexJs.hasRepetitiveSequence password = false ->
      IndexJs.hasConsecutiveLetterSequence password = true ->
      IndexJs._calculateDiversityScore password = 100).
Proof.
  unfold IndexJs._calculateDiversityScore, CipherForge.characterSets.
  cbn [fold_left]. split; [| split].
  - destruct (RegExp.test RegExp.lowercase password),
      (RegExp.test RegExp.uppercase password),
      (RegExp.test RegExp.digit password),
      (RegExp.test RegExp.nonWord password),
      (IndexJs.hasRepetitiveSequence password),
      (IndexJs.hasConsecutiveLetterSequence password);
      first [left; reflexivity | right; left; reflexivity
            | right; right; reflexivity].
  - intros H. apply hasRepetitiveSequence_spec in H. rewrite H.
    destruct (IndexJs.hasConsecutiveLetterSequence password); reflexivity.
  - intros Hr Hl. rewrite Hr, Hl.
    destruct (letter_run_class password Hl) as [-> | ->];
      destruct (RegExp.test RegExp.lowercase password),
        (RegExp.test RegExp.uppercase password),
        (RegExp.test RegExp.digit password),
        (RegExp.test RegExp.nonWord password); reflexivity.
Qed.

(** All four classes, and [111] in the middle: 0. *)
Lemma IndexJs_diversity_values_witness :
  IndexJs._calculateDiversityScore (js "aB111!") = 0.
Proof.
  destruct (IndexJs_diversity_values (js "aB111!")) as (_ & H & _).
  rewrite H; [reflexivity |].
  exists (js "aB"), 49%N, (js "!"). split; reflexivity.
Defined.

Lemma hasNumberSequence_spec (s : jsstring) :
  IndexJsSecond.hasNumberSequence s = true
  <-> exists pre a b c post,
        s = pre ++ a :: b :: c :: post
        /\ RegExp.digit a = true /\ RegExp.digit b = true
        /\ RegExp.digit c = true.
Proof.
  rewrite (window_spec
             (fun a b c => RegExp.digit a && RegExp.digit b
                           && RegExp.digit c)%bool
             IndexJsSecond.hasNumberSequence);
    [| intros [| a [| b [| c r]]]; reflexivity].
  split; intros (pre & a & b & c & post & E & H);
    exists pre, a, b, c, post; (split; [exact E |]).
  - apply andb_prop in H. destruct H as (H & Hc).
    apply andb_prop in H. tauto.
  - destruct H as (-> & -> & ->). reflexivity.
Qed.

Lemma hasLetterSequence_spec (s : jsstring) :
  IndexJsSecond.hasLetterSequence s = true
  <-> exists pre a b c post,
        s = pre ++ a :: b :: c :: post
        /\ IndexJsSecond.alphabetical a b c = true.
Proof.
  apply (window_spec IndexJsSecond.alphabetical).
  intros [| a [| b [| c r]]]; reflexivity.
Qed.

(** The alternatives are the runs of three successive letters. *)
Lemma alphabetical_spec (a b c : codeunit) :
  IndexJsSecond.alphabetical a b c = true
  <-> (97 <= IndexJsSecond.foldCase a <= 120
       /\ IndexJsSecond.foldCase b = IndexJsSecond.foldCase a + 1
       /\ IndexJsSecond.foldCase c = IndexJsSecond.foldCase a + 2)%N.
Proof.
  unfold IndexJsSecond.alphabetical.
  generalize (IndexJsSecond.foldCase a), (IndexJsSecond.foldCase b),
    (IndexJsSecond.foldCase c). intros x y z.
  rewrite existsb_exists. split.
  - intros (alt & Hin & Heq). apply bool_decide_eq_true in Heq.
    vm_compute in Hin.
    repeat (destruct Hin as [<- | Hin];
            [injection Heq as <- <- <-; lia |]).
    contradiction.
  - intros (Hx & -> & ->).
    exists [x; x + 1; x + 2]%N. split; [| now apply bool_decide_eq_true].
    assert (H : (x = 97 \/ x = 98 \/ x = 99 \/ x = 100 \/ x = 101
                 \/ x = 102 \/ x = 103 \/ x = 104 \/ x = 105 \/ x = 106
                 \/ x = 107 \/ x = 108 \/ x = 109 \/ x = 110 \/ x = 111
                 \/ x = 112 \/ x = 113 \/ x = 114 \/ x = 115 \/ x = 116
                 \/ x = 117 \/ x = 118 \/ x = 119 \/ x = 120)%N) by lia.
    repeat (destruct H as [-> | H]; [vm_compute; tauto |]).
    subst x. vm_compute. tauto.
Qed.

(** The diversity score of the second text of index.js is the one of the
    additive scheme, 25 for each class, except that it is 0 as soon as
    the password holds three digits in a row (any digits) or three
    successive letters of the alphabet in any mix of cases. *)
Theorem IndexJsSecond_diversity_sequences (password : jsstring) :
  IndexJsSecond._calculateDiversityScore password
  <= CipherForge.calculateDiversityScore password
  /\ ((exists pre a b c post,
          password = pre ++ a :: b :: c :: post
          /\ RegExp.digit a = true /\ RegExp.digit b = true
          /\ RegExp.digit c = true) ->
      IndexJsSecond._calculateDiversityScore password = 0)
  /\ ((exists pre a b c post,
          password = pre ++ a :: b :: c :: post
          /\ (97 <= IndexJsSecond.foldCase a <= 120
              /\ IndexJsSecond.foldCase b = IndexJsSecond.foldCase a + 1
              /\ IndexJsSecond.foldCase c = IndexJsSecond.foldCase a + 2)%N) ->
      IndexJsSecond._calculateDiversityScore password = 0)
  /\ (IndexJsSecond.hasNumberSequence password = false ->
      IndexJsSecond.hasLetterSequence password = false ->
      IndexJsSecond._calculateDiversityScore password
      = CipherForge.calculateDiversityScore password).
Proof.
  unfold IndexJsSecond._calculateDiversityScore,
    CipherForge.calculateDiversityScore.
  split; [| split; [| split]].
  - destruct (_ || _)%bool; [| apply Qle_refl].
    unfold CipherForge.characterSets. cbn [fold_left].
    destruct (RegExp.test RegExp.lowercase password),
      (RegExp.test RegExp.uppercase password),
      (RegExp.test RegExp.digit password),
      (RegExp.test RegExp.nonWord password); discriminate.
  - intros H. apply hasNumberSequence_spec in H. now rewrite H.
  - intros (pre & a & b & c & post & E & H).
    assert (Hs : IndexJsSecond.hasLetterSequence password = true).
    { apply hasLetterSequence_spec. exists pre, a, b, c, post.
      split; [exact E | now apply alphabetical_spec]. }
    rewrite Hs. now rewrite Bool.orb_true_r.
  - intros -> ->. reflexivity.
Qed.

(** A year in a password of all four classes. *)
Lemma IndexJsSecond_diversity_sequences_witness :
  IndexJsSecond._calculateDiversityScore (js "Tr0ub&2019") = 0.
Proof.
  destruct (IndexJsSecond_diversity_sequences (js "Tr0ub&2019"))
    as (_ & H & _).
  apply H. exists (js "Tr0ub&"), 50%N, 48%N, 49%N, (js "9").
  repeat split.
Defined.

End OtherDiversityScores.

(* ===================================================================== *)
(** ** The special-characters score of index.js                          *)
(* ===================================================================== *)

Section OtherSpecialScore.

Local Open Scope Q_scope.

Variable numberToString : IndexJs.number -> jsstring.

Lemma countSpecial_filter (s : jsstring) (acc : Z) :
  IndexJs.countSpecial s acc
  = (acc + Z.of_nat (List.length
                       (List.filter IndexJs.specialCharactersRegex s)))%Z.
Proof.
  revert acc. induction s as [| c s IH]; intros acc; cbn [IndexJs.countSpecial].
  - cbn. lia.
  - rewrite IH. cbn [List.filter].
    destruct (IndexJs.specialCharactersRegex c); cbn [List.length]; lia.
Qed.

Lemma percentage_facts (c l : Z) :
  (0 <= c <= l)%Z -> (0 < l)%Z ->
  let q := Qmin (inject_Z c / inject_Z l * 100) 100 in
  q == inject_Z (100 * c) / inject_Z l
  /\ 0 <= q <= 100
  /\ (q == 100 <-> c = l)
  /\ (q == 0 <-> c = 0%Z).
Proof.
  intros Hc Hl. cbv zeta.
  assert (Hnz : ~ inject_Z l == 0).
  { change 0 with (inject_Z 0). rewrite inject_Z_injective. lia. }
  assert (E : inject_Z c / inject_Z l * 100 == inject_Z (100 * c) / inject_Z l).
  { rewrite inject_Z_mult. change (inject_Z 100) with 100. now field. }
  assert (Hle : inject_Z (100 * c) / inject_Z l <= 100).
  { apply Qle_shift_div_r.
    - change 0 with (inject_Z 0). now rewrite <- Zlt_Qlt.
    - change 100 with (inject_Z 100). rewrite <- inject_Z_mult, <- Zle_Qle.
      lia. }
  assert (Hmin : Qmin (inject_Z c / inject_Z l * 100) 100
                 == inject_Z (100 * c) / inject_Z l).
  { rewrite E. now apply Q.min_l. }
  rewrite Hmin. split; [reflexivity |]. split; [split |]; [| exact Hle |].
  - apply Qle_shift_div_l.
    + change 0 with (inject_Z 0). now rewrite <- Zlt_Qlt.
    + rewrite Qmult_0_l. change 0 with (inject_Z 0). rewrite <- Zle_Qle. lia.
  - split; split; intros H.
    + apply (Qmult_inj_r _ _ (inject_Z l) Hnz) in H.
      rewrite Qmult_comm, Qmult_div_r in H by exact Hnz.
      change 100 with (inject_Z 100) in H.
      rewrite <- inject_Z_mult in H. rewrite inject_Z_injective in H. lia.
    + subst c. rewrite inject_Z_mult. change (inject_Z 100) with 100.
      now field.
    + apply (Qmult_inj_r _ _ (inject_Z l) Hnz) in H.
      rewrite Qmult_comm, Qmult_div_r, Qmult_0_l in H by exact Hnz.
      change 0 with (inject_Z 0) in H. rewrite inject_Z_injective in H. lia.
    + subst c. change (inject_Z (100 * 0)) with 0. now field.
Qed.

(** The special-characters score of the first text of index.js is the
    percentage of the code units outside [[A-Za-z0-9]]: a number from 0 to
    100, which is 100 exactly when every code unit is special and 0 exactly
    when none is.  For the empty password it is [NaN].  Every call writes
    one line to the console. *)
Theorem IndexJs_special_percentage (password : jsstring)
        (out : CipherForge.console) :
  let count :=
    Z.of_nat (List.length
                (List.filter IndexJs.specialCharactersRegex password)) in
  let len := Z.of_nat (List.length password) in
  exists score,
    IndexJs._calculateSpecialCharactersScore numberToString password out
    = (Return score,
       out ++ [js "Special Characters Score: " ++ numberToString score])
    /\ (password = [] -> score = IndexJs.NaN)
    /\ (password <> [] ->
        exists q, score = IndexJs.Finite q
                  /\ q == inject_Z (100 * count) / inject_Z len
                  /\ 0 <= q <= 100
                  /\ (q == 100 <-> count = len)
                  /\ (q == 0 <-> count = 0%Z)).
Proof.
  cbv zeta. eexists. split; [reflexivity |]. split.
  - intros ->. reflexivity.
  - intros Hne. rewrite countSpecial_filter, Z.add_0_l.
    set (c := Z.of_nat (List.length (List.filter _ password))).
    set (l := Z.of_nat (List.length password)).
    assert (Hl : (0 < l)%Z)
      by (unfold l; destruct password; [congruence | cbn; lia]).
    assert (Hc : (0 <= c <= l)%Z).
    { unfold c, l. pose proof (List.filter_length_le
                                 IndexJs.specialCharactersRegex password).
      lia. }
    unfold IndexJs.divide. destruct (Z.eqb_spec l 0); [lia |].
    cbn [IndexJs.times100 IndexJs.min100].
    eexists. split; [reflexivity |].
    exact (percentage_facts c l Hc Hl).
Qed.

End OtherSpecialScore.

(** One special character out of four. *)
Lemma IndexJs_special_percentage_witness :
  exists q,
    fst (IndexJs._calculateSpecialCharactersScore (fun _ => []) (js "ab!c") [])
    = Return (IndexJs.Finite q)
    /\ (q == 25)%Q.
Proof.
  destruct (IndexJs_special_percentage (fun _ => []) (js "ab!c") [])
    as (score & E & _ & H).
  destruct (H ltac:(discriminate)) as (q & -> & Hq & _).
  exists q. rewrite E. split; [reflexivity |]. rewrite Hq. reflexivity.
Defined.

(* ===================================================================== *)
(** ** Whole words and tokens                                            *)
(* ===================================================================== *)

Section WholeWords.

Import WordRegExp.

Lemma startsWith_prefix (w s : jsstring) :
  startsWith w s = true -> s = w ++ skipn (List.length w) s.
Proof.
  revert s. induction w as [| a w IH]; intros s H; [reflexivity |].
  destruct s as [| b s]; [discriminate |]. cbn [startsWith] in H.
  apply andb_prop in H. destruct H as (Hab & H).
  apply N.eqb_eq in Hab. subst b. cbn. f_equal. now apply IH.
Qed.

Lemma splitRuns_word_prefix (w : jsstring) :
  w <> [] -> Forall (fun c => RegExp.word c = true) w ->
  forall (inSep : bool) (cur rest : jsstring),
    RegExp.splitRuns RegExp.nonWord inSep cur (w ++ rest)
    = RegExp.splitRuns RegExp.nonWord false (rev w ++ cur) rest.
Proof.
  intros Hne Hw. induction Hw as [| c w Hc Hw IH]; [congruence |].
  intros inSep cur rest. cbn [app RegExp.splitRuns].
  unfold RegExp.nonWord at 1. rewrite Hc. cbn [negb].
  destruct w as [| d w].
  - reflexivity.
  - rewrite IH by discriminate. cbn [rev]. now rewrite <- !app_assoc.
Qed.

Lemma last_word (w : jsstring) (prev : option codeunit) :
  w <> [] -> Forall (fun c => RegExp.word c = true) w ->
  isWordChar (List.last (List.map Some w) prev) = true.
Proof.
  intros Hne Hw. induction Hw as [| c w Hc Hw IH]; [congruence |].
  destruct w as [| d w]; [exact Hc |].
  change (List.last (List.map Some (c :: d :: w)) prev)
    with (List.last (List.map Some (d :: w)) prev).
  apply IH. discriminate.
Qed.

Lemma wholeWordHere_token (w s : jsstring) (inSep : bool) :
  w <> [] -> Forall (fun c => RegExp.word c = true) w ->
  forall prev, wholeWordHere prev w s = true ->
  isWordChar prev = false
  /\ In w (RegExp.splitRuns RegExp.nonWord inSep [] s).
Proof.
  intros Hne Hw prev H. unfold wholeWordHere in H.
  apply andb_prop in H. destruct H as (H & Hafter).
  apply andb_prop in H. destruct H as (Hbefore & Hstart).
  apply startsWith_prefix in Hstart.
  set (rest := skipn (List.length w) s) in *.
  assert (Hhead : isWordChar (head s) = true).
  { rewrite Hstart. destruct w as [| c w]; [congruence |].
    cbn. now inversion Hw. }
  unfold boundary in Hbefore, Hafter.
  rewrite Hhead in Hbefore. rewrite (last_word w prev Hne Hw) in Hafter.
  split; [now destruct (isWordChar prev) |].
  rewrite Hstart, (splitRuns_word_prefix w Hne Hw), app_nil_r.
  destruct rest as [| c rest]; cbn [RegExp.splitRuns].
  - left. apply rev_involutive.
  - cbn in Hafter. unfold RegExp.nonWord at 1.
    destruct (RegExp.word c); [discriminate |]. cbn [negb].
    left. apply rev_involutive.
Qed.

Lemma wholeWordFrom_token (w : jsstring) :
  w <> [] -> Forall (fun c => RegExp.word c = true) w ->
  forall (s : jsstring) (prev : option codeunit) (inSep : bool)
         (cur : jsstring),
    (isWordChar prev = false -> cur = []) ->
    wholeWordFrom prev w s = true ->
    In w (RegExp.splitRuns RegExp.nonWord inSep cur s).
Proof.
  intros Hne Hw. induction s as [| c s IH]; intros prev inSep cur Hcur H;
    cbn [wholeWordFrom] in H; apply Bool.orb_true_iff in H.
  - destruct H as [H | H]; [| discriminate].
    destruct (wholeWordHere_token w [] inSep Hne Hw prev H) as (Hp & Hin).
    now rewrite (Hcur Hp).
  - destruct H as [H | H].
    + destruct (wholeWordHere_token w (c :: s) inSep Hne Hw prev H)
        as (Hp & Hin).
      now rewrite (Hcur Hp).
    + cbn [RegExp.splitRuns]. unfold RegExp.nonWord at 1.
      destruct (RegExp.word c) eqn:Hc; cbn [negb].
      * apply (IH (Some c)); [| exact H]. cbn. congruence.
      * destruct inSep; [| right]; apply (IH (Some c)); auto.
Qed.

(** What a whole-word regular expression of a word finds is a token: one
    of the pieces between runs of non-word characters. *)
Lemma wholeWord_token (w s : jsstring) :
  w <> [] -> Forall (fun c => RegExp.word c = true) w ->
  wholeWord w s = true -> In w (RegExp.split RegExp.nonWord s).
Proof.
  intros Hne Hw H. unfold wholeWord in H. unfold RegExp.split.
  now apply (wholeWordFrom_token w Hne Hw s None false []).
Qed.

Lemma totalLength_cons (w : jsstring) (l : list jsstring) :
  totalLength (w :: l) = (Z.of_nat (List.length w) + totalLength l)%Z.
Proof. reflexivity. Qed.

Lemma splitRuns_totalLength (sep : codeunit -> bool) (s : jsstring) :
  forall (inSep : bool) (cur : jsstring),
    (totalLength (RegExp.splitRuns sep inSep cur s)
     <= Z.of_nat (List.length cur) + Z.of_nat (List.length s))%Z.
Proof.
  induction s as [| c s IH]; intros inSep cur; cbn [RegExp.splitRuns].
  - cbn. rewrite length_rev. lia.
  - destruct (sep c).
    + destruct inSep.
      * specialize (IH true []). cbn [List.length] in *. lia.
      * specialize (IH true []). rewrite totalLength_cons.
        rewrite length_rev. cbn [List.length] in *. lia.
    + specialize (IH false (c :: cur)). cbn [List.length] in *. lia.
Qed.

Lemma submseteq_totalLength (l1 l2 : list jsstring) :
  l1 ⊆+ l2 -> (totalLength l1 <= totalLength l2)%Z.
Proof.
  induction 1 as [| x k1 k2 _ IH | x y k | x k1 k2 _ IH
                  | k1 k2 k3 _ IH1 _ IH2];
    rewrite ?totalLength_cons; lia.
Qed.

Lemma distinct_tokens_fit (ws : list jsstring) (s : jsstring) :
  NoDup ws -> (forall w, In w ws -> In w (RegExp.split RegExp.nonWord s)) ->
  (0 <= totalLength ws <= Z.of_nat (List.length s))%Z.
Proof.
  intros Hnd Hin. split.
  - clear. induction ws as [| w ws IH]; [cbn; lia |].
    rewrite totalLength_cons. lia.
  - apply Z.le_trans with (totalLength (RegExp.split RegExp.nonWord s)).
    + apply submseteq_totalLength, NoDup_submseteq; [exact Hnd |].
      intros w Hw. apply list_elem_of_In, Hin. now apply list_elem_of_In.
    + unfold RegExp.split.
      pose proof (splitRuns_totalLength RegExp.nonWord s false []).
      cbn [List.length] in *. lia.
Qed.

End WholeWords.

(* ===================================================================== *)
(** ** The dictionary scores of index.js                                 *)
(* ===================================================================== *)

Section OtherDictionaryScores.

Local Open Scope Q_scope.

Lemma alphanumeric_word (word : jsstring) :
  IndexJs.alphanumericRegex word = true ->
  word <> [] /\ Forall (fun c => RegExp.word c = true) word.
Proof.
  unfold IndexJs.alphanumericRegex. intros H.
  apply andb_prop in H. destruct H as (Hne & Hall). split.
  - destruct word; [discriminate | discriminate].
  - rewrite forallb_forall in Hall. apply List.Forall_forall.
    intros c Hc. specialize (Hall c Hc). unfold RegExp.word.
    now rewrite Hall.
Qed.

(** The loop keeps distinct words that are tokens of the password, and
    counts their characters. *)
Lemma dictionaryLoop_invariant (password : jsstring) (pwd : list jsstring) :
  forall (count : Z) (unique : list jsstring),
    NoDup unique ->
    (forall w, In w unique -> In w (RegExp.split RegExp.nonWord password)) ->
    count = WordRegExp.totalLength unique ->
    let result := IndexJs.dictionaryLoop pwd password count unique in
    NoDup (snd result)
    /\ (forall w, In w (snd result) ->
                  In w (RegExp.split RegExp.nonWord password))
    /\ fst result = WordRegExp.totalLength (snd result).
Proof.
  induction pwd as [| word pwd IH]; intros count unique Hnd Htok Hcount;
    cbn [IndexJs.dictionaryLoop]; [cbn; auto |].
  destruct (IndexJs.alphanumericRegex word) eqn:Ha; [| now apply IH].
  destruct (WordRegExp.wholeWord word password) eqn:Hw; cbn [andb];
    [| now apply IH].
  destruct (bool_decide (word ∈ unique)) eqn:Hu; cbn [negb];
    [now apply IH |].
  apply bool_decide_eq_false in Hu.
  destruct (alphanumeric_word word Ha) as (Hne & Hall).
  apply IH.
  - apply NoDup_app. repeat split; [exact Hnd | | apply NoDup_singleton].
    intros x Hx Hx'. apply list_elem_of_singleton in Hx'. now subst.
  - intros w Hin. apply in_app_or in Hin. destruct Hin as [Hin | Hin].
    + now apply Htok.
    + destruct Hin as [<- | []]. now apply wholeWord_token.
  - subst count. clear. induction unique as [| u unique IHu].
    + cbn. lia.
    + cbn [app]. rewrite !totalLength_cons. lia.
Qed.

Lemma dictionaryLoop_none (password : jsstring) (pwd : list jsstring) :
  (forall w, In w pwd -> IndexJs.alphanumericRegex w = true ->
             WordRegExp.wholeWord w password = false) ->
  forall count unique,
    IndexJs.dictionaryLoop pwd password count unique = (count, unique).
Proof.
  induction pwd as [| word pwd IH]; intros H count unique;
    cbn [IndexJs.dictionaryLoop]; [reflexivity |].
  destruct (IndexJs.alphanumericRegex word) eqn:Ha.
  - rewrite (H word (or_introl eq_refl) Ha). cbn [andb].
    apply IH. intros w Hw. apply H. now right.
  - apply IH. intros w Hw. apply H. now right.
Qed.

(** The dictionary score of the first text of index.js is [NaN] for the
    empty password and otherwise a number from 0 to 100: the characters
    of the listed words found as whole words never outnumber those of the
    password, each word counting once.  It is 100 when no listed word
    made of letters and digits stands in the password as a whole word. *)
Theorem IndexJs_dictionary_score_range (pwd : list jsstring)
        (password : jsstring) :
  (password = [] -> IndexJs._calculateDictionaryScore pwd password
                    = IndexJs.NaN)
  /\ (password <> [] ->
      exists q, IndexJs._calculateDictionaryScore pwd password
                = IndexJs.Finite q
                /\ 0 <= q <= 100
                /\ ((forall w, In w pwd ->
                               IndexJs.alphanumericRegex w = true ->
                               WordRegExp.wholeWord w password = false) ->
                    q == 100)).
Proof.
  unfold IndexJs._calculateDictionaryScore.
  destruct (dictionaryLoop_invariant password pwd 0 [] (NoDup_nil_2)
              ltac:(intros w []) eq_refl) as (Hnd & Htok & Hcount).
  destruct (distinct_tokens_fit _ password Hnd Htok) as (H0 & Hlen).
  rewrite <- Hcount in H0, Hlen.
  set (count := fst (IndexJs.dictionaryLoop pwd password 0 [])) in *.
  split.
  - intros ->. cbn [List.length Z.of_nat] in *.
    assert (count = 0%Z) as -> by lia. reflexivity.
  - intros Hne.
    set (len := Z.of_nat (List.length password)) in *.
    assert (Hl : (0 < len)%Z)
      by (unfold len; destruct password; [congruence | cbn; lia]).
    unfold IndexJs.divide. destruct (Z.eqb_spec len 0); [lia |].
    cbn [IndexJs.times100 IndexJs.from100].
    eexists. split; [reflexivity |].
    assert (Hnz : ~ inject_Z len == 0).
    { change 0 with (inject_Z 0). rewrite inject_Z_injective. lia. }
    assert (Hq : 0 <= inject_Z count / inject_Z len * 100 <= 100).
    { assert (E : inject_Z count / inject_Z len * 100
                  == inject_Z (100 * count) / inject_Z len).
      { rewrite inject_Z_mult. change (inject_Z 100) with 100. now field. }
      rewrite E. split.
      - apply Qle_shift_div_l.
        + change 0 with (inject_Z 0). now rewrite <- Zlt_Qlt.
        + rewrite Qmult_0_l. change 0 with (inject_Z 0).
          rewrite <- Zle_Qle. lia.
      - apply Qle_shift_div_r.
        + change 0 with (inject_Z 0). now rewrite <- Zlt_Qlt.
        + change 100 with (inject_Z 100).
          rewrite <- inject_Z_mult, <- Zle_Qle. lia. }
    split; [split; lra |].
    intros Hnone.
    assert (Hc : count = 0%Z)
      by (unfold count; now rewrite (dictionaryLoop_none password pwd Hnone)).
    rewrite Hc. change (inject_Z 0) with 0. now field.
Qed.

End OtherDictionaryScores.

(** [pass] and [word] are listed (one of them twice): eight characters of
    the nine count. *)
Lemma IndexJs_dictionary_score_range_witness :
  exists q,
    IndexJs._calculateDictionaryScore
      [js "pass"; js "word"; js "pass"; js "a-b"] (js "pass word")
    = IndexJs.Finite q
    /\ (0 <= q <= 100)%Q.
Proof.
  destruct (IndexJs_dictionary_score_range
              [js "pass"; js "word"; js "pass"; js "a-b"] (js "pass word"))
    as (_ & H).
  destruct (H ltac:(discriminate)) as (q & E & Hq & _). eauto.
Defined.

Section InvertedDictionaryScore.

Local Open Scope Q_scope.

Variable toLowerCase : jsstring -> jsstring.

(** [x || 100] for the percentage [k / n * 100]. *)
Lemma percentage_or_100 (k n : Z) :
  (0 <= k <= n)%Z -> (0 < n)%Z ->
  let percentage := inject_Z k / inject_Z n * 100 in
  let v := if Qeq_bool percentage 0 then 100 else percentage in
  v == (if (k =? 0)%Z then 100 else inject_Z (100 * k) / inject_Z n)
  /\ 0 < v <= 100
  /\ (v == 100 <-> k = 0%Z \/ k = n).
Proof.
  intros Hk Hn. cbv zeta.
  assert (Hnz : ~ inject_Z n == 0).
  { change 0 with (inject_Z 0). rewrite inject_Z_injective. lia. }
  assert (Hpos : 0 < inject_Z n)
    by (change 0 with (inject_Z 0); now rewrite <- Zlt_Qlt).
  assert (E : inject_Z k / inject_Z n * 100
              == inject_Z (100 * k) / inject_Z n).
  { rewrite inject_Z_mult. change (inject_Z 100) with 100. now field. }
  assert (Hzero : inject_Z (100 * k) / inject_Z n == 0 <-> k = 0%Z).
  { split; intros H.
    - apply (Qmult_inj_r _ _ (inject_Z n) Hnz) in H.
      rewrite Qmult_comm, Qmult_div_r, Qmult_0_l in H by exact Hnz.
      change 0 with (inject_Z 0) in H. rewrite inject_Z_injective in H. lia.
    - subst k. change (inject_Z (100 * 0)) with 0. now field. }
  assert (Hfull : inject_Z (100 * k) / inject_Z n == 100 <-> k = n).
  { split; intros H.
    - apply (Qmult_inj_r _ _ (inject_Z n) Hnz) in H.
      rewrite Qmult_comm, Qmult_div_r in H by exact Hnz.
      change 100 with (inject_Z 100) in H.
      rewrite <- inject_Z_mult in H. rewrite inject_Z_injective in H. lia.
    - subst k. rewrite inject_Z_mult. change (inject_Z 100) with 100.
      now field. }
  assert (Hle : inject_Z (100 * k) / inject_Z n <= 100).
  { apply Qle_shift_div_r; [exact Hpos |].
    change 100 with (inject_Z 100). rewrite <- inject_Z_mult, <- Zle_Qle.
    lia. }
  destruct (Qeq_bool (inject_Z k / inject_Z n * 100) 0) eqn:Hb.
  - apply Qeq_bool_iff in Hb. rewrite E in Hb. apply Hzero in Hb. subst k.
    cbn [Z.eqb]. split; [reflexivity |].
    split; [split; [reflexivity | discriminate] |].
    split; [now left | reflexivity].
  - assert (Hk0 : k <> 0%Z).
    { intros ->. apply Qeq_bool_neq in Hb. apply Hb.
      change (inject_Z 0) with 0. now field. }
    destruct (Z.eqb_spec k 0); [contradiction |].
    rewrite E. split; [reflexivity |]. split; [split; [| exact Hle] |].
    + apply Qlt_shift_div_l; [exact Hpos |]. rewrite Qmult_0_l.
      change 0 with (inject_Z 0). rewrite <- Zlt_Qlt. lia.
    + rewrite Hfull. split; [now right | intros [? | ?]; [lia | assumption]].
Qed.

(** The dictionary score of the second text of index.js is never 0 and
    never above 100.  It is 100 when the dictionary has no word, when the
    password holds none of its words, and also when it holds all of them;
    otherwise it is the percentage of the dictionary's words that are
    found in the password, so that a password in which more words are
    found scores higher. *)
Theorem IndexJsSecond_dictionary_inverted (this : IndexJsSecond.instance)
        (password : jsstring) :
  let n := Z.of_nat (List.length
                       (WordRegExp.wordRuns
                          (toLowerCase (IndexJsSecond.dictionary this)))) in
  let k := Z.of_nat (List.length
                       (IndexJsSecond.wordsPresent toLowerCase this
                                                   password)) in
  let score :=
    IndexJsSecond._calculateDictionaryScore toLowerCase this password in
  (0 <= k <= n)%Z
  /\ 0 < score <= 100
  /\ (k = 0%Z -> score == 100)
  /\ ((0 < k)%Z -> score == inject_Z (100 * k) / inject_Z n)
  /\ (score == 100 <-> k = 0%Z \/ k = n)
  /\ (forall password',
         let k' := Z.of_nat (List.length
                               (IndexJsSecond.wordsPresent toLowerCase this
                                                           password')) in
         (0 < k <= k')%Z ->
         score <= IndexJsSecond._calculateDictionaryScore toLowerCase this
                                                           password').
Proof.
  cbv zeta. unfold IndexJsSecond._calculateDictionaryScore. cbv zeta.
  assert (Hk : forall p,
             (0 <= Z.of_nat (List.length
                               (IndexJsSecond.wordsPresent toLowerCase this p))
              <= Z.of_nat (List.length
                             (WordRegExp.wordRuns
                                (toLowerCase
                                   (IndexJsSecond.dictionary this)))))%Z).
  { intros p. unfold IndexJsSecond.wordsPresent. cbv zeta.
    pose proof (List.filter_length_le
                  (fun word => WordRegExp.wholeWord word
                     (toLowerCase (IndexJsSecond.removeWhiteSpace p)))
                  (WordRegExp.wordRuns
                     (toLowerCase (IndexJsSecond.dictionary this)))).
    lia. }
  split; [apply Hk |].
  destruct (WordRegExp.wordRuns (toLowerCase (IndexJsSecond.dictionary this)))
    as [| w ws] eqn:Ew.
  - assert (Hf : forall p,
               Z.of_nat (List.length
                           (IndexJsSecond.wordsPresent toLowerCase this p))
               = 0%Z).
    { intros p. specialize (Hk p). cbn [List.length Z.of_nat] in Hk. lia. }
    rewrite Hf. cbn [List.length Z.of_nat].
    split; [split; [reflexivity | discriminate] |]. split; [reflexivity |].
    split; [lia |]. split; [split; [now left | reflexivity] |].
    intros p' H. rewrite Hf in H. lia.
  - set (n := Z.of_nat (List.length (w :: ws))) in *.
    assert (Hn : (0 < n)%Z) by (unfold n; cbn; lia).
    set (k := Z.of_nat (List.length
                          (IndexJsSecond.wordsPresent toLowerCase this
                                                      password))) in *.
    destruct (percentage_or_100 k n (Hk password) Hn) as (Hv & Hr & H100).
    split; [exact Hr |]. split; [| split; [| split]].
    + intros H0. rewrite Hv, H0. reflexivity.
    + intros Hpos. rewrite Hv.
      destruct (Z.eqb_spec k 0); [lia | reflexivity].
    + exact H100.
    + intros p' (Hpos & Hle).
      set (k' := Z.of_nat (List.length
                             (IndexJsSecond.wordsPresent toLowerCase this
                                                         p'))) in *.
      destruct (percentage_or_100 k' n (Hk p') Hn) as (Hv' & _ & _).
      rewrite Hv, Hv'.
      destruct (Z.eqb_spec k 0); [lia |].
      destruct (Z.eqb_spec k' 0); [lia |].
      unfold Qdiv. apply Qmult_le_compat_r.
      * rewrite <- Zle_Qle. lia.
      * apply Qinv_le_0_compat. change 0 with (inject_Z 0).
        rewrite <- Zle_Qle. lia.
Qed.

End InvertedDictionaryScore.

(** With three words in the dictionary, the password in which two are
    found outscores the one in which one is found. *)
Lemma IndexJsSecond_dictionary_inverted_witness :
  (IndexJsSecond._calculateDictionaryScore toLowerCaseASCII
     {| IndexJsSecond.dictionaryFilePath := js "psw.txt";
        IndexJsSecond.dictionary := js "password,admin,qwerty" |}
     (js "admin!")
   <= IndexJsSecond._calculateDictionaryScore toLowerCaseASCII
        {| IndexJsSecond.dictionaryFilePath := js "psw.txt";
           IndexJsSecond.dictionary := js "password,admin,qwerty" |}
        (js "admin-qwerty"))%Q.
Proof.
  destruct (IndexJsSecond_dictionary_inverted toLowerCaseASCII
              {| IndexJsSecond.dictionaryFilePath := js "psw.txt";
                 IndexJsSecond.dictionary := js "password,admin,qwerty" |}
              (js "admin!")) as (_ & _ & _ & _ & _ & H).
  apply H. vm_compute. split; [reflexivity | discriminate].
Defined.

Section SecondConstruction.

(** The second text of index.js has the defect of the other revision:
    its module never declares [path], so where the global object has no
    property of that name the constructor throws a [ReferenceError] before
    the dictionary is read. *)
Theorem IndexJsSecond_constructor_path_unbound (h : CipherForge.host)
        (dirname : jsstring) (out : CipherForge.console) :
  "path"%string ∉ CipherForge.globalNames h ->
  IndexJsSecond.constructor h dirname out
  = (Throw (ReferenceError (js "path is not defined")), out).
Proof.
  intros H. unfold IndexJsSecond.constructor.
  now rewrite (bound_path_false h H).
Qed.

End SecondConstruction.

(** In a Node.js process. *)
Lemma IndexJsSecond_constructor_path_unbound_witness :
  IndexJsSecond.constructor Sample.node (js "/app/node_modules/cipherforge") []
  = (Throw (ReferenceError (js "path is not defined")), []).
Proof.
  apply IndexJsSecond_constructor_path_unbound.
  cbn [CipherForge.globalNames Sample.node].
  rewrite list_elem_of_In. cbn. intuition discriminate.
Defined.

Section MissingDictionary.

Local Open Scope Q_scope.

Variable toLowerCase : jsstring -> jsstring.

(** In the second text of index.js a dictionary file that cannot be read
    leaves one line on the console and the empty string as dictionary,
    and then (folding the empty string giving the empty string) every
    password has the dictionary score 100. *)
Theorem IndexJsSecond_missing_dictionary (h : CipherForge.host)
        (file : jsstring) (e : error) (out : CipherForge.console) :
  CipherForge.readFileSync h file = inr e ->
  toLowerCase [] = [] ->
  IndexJsSecond.loadDictionary h file out
  = (Return [],
     out ++ [js "Error reading the file " ++ file ++ js ": "
               ++ message_of e])
  /\ forall path password,
       IndexJsSecond._calculateDictionaryScore toLowerCase
         {| IndexJsSecond.dictionaryFilePath := path;
            IndexJsSecond.dictionary := [] |} password
       = 100.
Proof.
  intros Hread Hfold. split.
  - unfold IndexJsSecond.loadDictionary. now rewrite Hread.
  - intros path password. unfold IndexJsSecond._calculateDictionaryScore.
    cbn [IndexJsSecond.dictionary]. now rewrite Hfold.
Qed.

End MissingDictionary.

(** The Node.js process of the samples, where the file is missing. *)
Lemma IndexJsSecond_missing_dictionary_witness :
  IndexJsSecond._calculateDictionaryScore toLowerCaseASCII
    {| IndexJsSecond.dictionaryFilePath := js "psw.txt";
       IndexJsSecond.dictionary := [] |} (js "password")
  = 100%Q.
Proof.
  destruct (IndexJsSecond_missing_dictionary toLowerCaseASCII Sample.node
              (js "psw.txt") _ [] eq_refl eq_refl) as (_ & H).
  apply H.
Defined.

Section TokensAreFound.

Import WordRegExp.

Lemma leadingWord_split (s : jsstring) :
  s = leadingWord s ++ skipn (List.length (leadingWord s)) s
  /\ Forall (fun c => RegExp.word c = true) (leadingWord s)
  /\ isWordChar (head (skipn (List.length (leadingWord s)) s)) = false.
Proof.
  induction s as [| c s (IH1 & IH2 & IH3)]; [cbn; auto |].
  cbn [leadingWord]. destruct (RegExp.word c) eqn:Hc.
  - cbn [List.length skipn app]. repeat split.
    + now rewrite <- IH1.
    + now constructor.
    + exact IH3.
  - cbn. auto.
Qed.

Lemma startsWith_app (w rest : jsstring) : startsWith w (w ++ rest) = true.
Proof.
  induction w as [| c w IH]; [reflexivity |].
  cbn. now rewrite N.eqb_refl, IH.
Qed.

Lemma wholeWordHere_leadingWord (prev : option codeunit) (s : jsstring) :
  isWordChar prev = false -> leadingWord s <> [] ->
  wholeWordHere prev (leadingWord s) s = true.
Proof.
  intros Hp Hne. destruct (leadingWord_split s) as (Hs & Hw & Hrest).
  unfold wholeWordHere, boundary.
  rewrite (last_word (leadingWord s) prev Hne Hw).
  rewrite Hp, Hrest.
  assert (Hhead : isWordChar (head s) = true).
  { rewrite Hs. destruct (leadingWord s) as [| c w]; [congruence |].
    cbn. now inversion Hw. }
  rewrite Hhead. rewrite Hs at 2. now rewrite startsWith_app.
Qed.

Lemma token_found_from (w : jsstring) :
  w <> [] ->
  forall (s : jsstring) (prev : option codeunit) (inSep : bool)
         (cur : jsstring),
    In w (RegExp.splitRuns RegExp.nonWord inSep cur s) ->
    w = rev cur ++ leadingWord s \/ wholeWordFrom prev w s = true.
Proof.
  intros Hne. induction s as [| c s IH]; intros prev inSep cur Hin;
    cbn [RegExp.splitRuns] in Hin.
  - destruct Hin as [<- | []]. left. cbn. now rewrite app_nil_r.
  - cbn [leadingWord wholeWordFrom]. unfold RegExp.nonWord in Hin at 1.
    destruct (RegExp.word c) eqn:Hc; cbn [negb] in Hin.
    + destruct (IH (Some c) false (c :: cur) Hin) as [-> | H].
      * left. cbn [rev]. now rewrite <- app_assoc.
      * right. rewrite H. apply Bool.orb_true_r.
    + assert (Hrest : In w (RegExp.splitRuns RegExp.nonWord true [] s)
                      \/ w = rev cur ++ []).
      { destruct inSep; [now left |].
        destruct Hin as [<- | Hin]; [right; now rewrite app_nil_r |].
        now left. }
      destruct Hrest as [Hrest | ->]; [| now left].
      right. apply Bool.orb_true_iff. right.
      destruct (IH (Some c) true [] Hrest) as [Hw | H]; [| exact H].
      cbn [rev app] in Hw. subst w.
      destruct s as [| d s]; [contradiction Hne; reflexivity |].
      cbn [wholeWordFrom].
      rewrite wholeWordHere_leadingWord; [reflexivity | | exact Hne].
      cbn. now rewrite Hc.
Qed.

(** Conversely every token that is not empty is found by the whole-word
    regular expression made of it. *)
Lemma token_wholeWord (w s : jsstring) :
  w <> [] -> In w (RegExp.split RegExp.nonWord s) ->
  wholeWord w s = true.
Proof.
  intros Hne Hin. unfold wholeWord.
  destruct (token_found_from w Hne s None false [] Hin) as [Hw | H];
    [| exact H].
  cbn [rev app] in Hw. subst w.
  destruct s as [| c s]; [contradiction Hne; reflexivity |].
  cbn [wholeWordFrom].
  now rewrite wholeWordHere_leadingWord.
Qed.

(** A word of letters, digits and underscores is found by its whole-word
    regular expression exactly when it is one of the tokens of the text,
    the pieces between runs of non-word characters. *)
Theorem whole_word_iff_token (w s : jsstring) :
  w <> [] -> Forall (fun c => RegExp.word c = true) w ->
  (wholeWord w s = true <-> In w (RegExp.split RegExp.nonWord s)).
Proof.
  intros Hne Hw. split.
  - now apply wholeWord_token.
  - now apply token_wholeWord.
Qed.

End TokensAreFound.

(** [admin] between a blank and a hyphen. *)
Lemma whole_word_iff_token_witness :
  WordRegExp.wholeWord (js "admin") (js "my admin-pass") = true.
Proof.
  apply whole_word_iff_token.
  - discriminate.
  - vm_compute. repeat constructor.
  - vm_compute. tauto.
Defined.
